(** * VoxVulgi image batch downloader: crawl engine

    A shallow embedding of [product/scripts/image_batch_downloader.py]
    and the properties of its variant resolver, srcset scorer, pagination
    classifier, dedup-and-fetch resolver and breadth-first traversal.

    Python [str] and [bytes] values are modelled as byte strings ([string]);
    the case-folding, whitespace, digit and word-character classes are the
    ASCII ones. Python sets that are only tested for membership are
    [gset string]; the one set the script iterates without sorting it
    ([path_variants]) is a list in an order that the process fixes
    ([set_iter]). Code that may raise returns a [result]; the crawl loop is
    a step function run for a number of iterations, with a proof that it
    halts. Every [session.get] is recorded in [requests], which the script
    does not have: it is there to state what is fetched.

    The file has the model first (string primitives, the library interface,
    the script function by function, a small library to run examples), then
    the definitions the properties are stated with, then the properties. *)

From Stdlib Require Import ZArith Ascii String.
From stdpp Require Import base tactics option list gmap sets strings sorting.

Local Open Scope Z_scope.
Local Open Scope string_scope.
Local Open Scope list_scope.

(** ** Python string primitives *)

Module PyStr.

Definition is_upper (c : ascii) : bool :=
  let n := nat_of_ascii c in (65 <=? n)%nat && (n <=? 90)%nat.
Definition is_lower (c : ascii) : bool :=
  let n := nat_of_ascii c in (97 <=? n)%nat && (n <=? 122)%nat.
Definition is_digit (c : ascii) : bool :=
  let n := nat_of_ascii c in (48 <=? n)%nat && (n <=? 57)%nat.
(** [\w] of the [re] module, ASCII part. *)
Definition is_word (c : ascii) : bool :=
  is_upper c || is_lower c || is_digit c || Ascii.eqb c "_"%char.
(** [str.isspace], ASCII part. *)
Definition is_space (c : ascii) : bool :=
  let n := nat_of_ascii c in
  ((9 <=? n)%nat && (n <=? 13)%nat) || ((28 <=? n)%nat && (n <=? 32)%nat).

Definition lower_ascii (c : ascii) : ascii :=
  if is_upper c then ascii_of_nat (nat_of_ascii c + 32) else c.

(** [s.lower()] *)
Fixpoint lower (s : string) : string :=
  match s with
  | EmptyString => EmptyString
  | String c r => String (lower_ascii c) (lower r)
  end.

(** [s.startswith(p)] *)
Definition startswith (p s : string) : bool := String.prefix p s.

(** [k in s] for strings *)
Fixpoint str_in (k s : string) : bool :=
  match s with
  | EmptyString => startswith k EmptyString
  | String _ r => startswith k s || str_in k r
  end.

Fixpoint rev_onto (s acc : string) : string :=
  match s with
  | EmptyString => acc
  | String c r => rev_onto r (String c acc)
  end.
Definition rev (s : string) : string := rev_onto s EmptyString.

(** [s.endswith(p)] *)
Definition endswith (p s : string) : bool := startswith (rev p) (rev s).

Fixpoint drop (n : nat) (s : string) : string :=
  match n, s with
  | S k, String _ r => drop k r
  | _, _ => s
  end.

Fixpoint lstrip_by (f : ascii -> bool) (s : string) : string :=
  match s with
  | String c r => if f c then lstrip_by f r else s
  | EmptyString => EmptyString
  end.
Definition strip_by (f : ascii -> bool) (s : string) : string :=
  rev (lstrip_by f (rev (lstrip_by f s))).

(** [s.strip()] *)
Definition strip (s : string) : string := strip_by is_space s.

(** [s.split(sep)] for a one-character separator: empty fields are kept. *)
Fixpoint split_on (sep : ascii) (s : string) : list string :=
  match s with
  | EmptyString => [EmptyString]
  | String c r =>
      if Ascii.eqb c sep then EmptyString :: split_on sep r
      else match split_on sep r with
           | w :: ws => String c w :: ws
           | [] => [String c EmptyString]
           end
  end.

(** [s.split()]: fields separated by runs of whitespace, none empty. *)
Fixpoint split_ws_go (cur : string) (s : string) : list string :=
  match s with
  | EmptyString => match cur with EmptyString => [] | _ => [rev cur] end
  | String c r =>
      if is_space c
      then match cur with
           | EmptyString => split_ws_go EmptyString r
           | _ => rev cur :: split_ws_go EmptyString r
           end
      else split_ws_go (String c cur) r
  end.
Definition split_ws (s : string) : list string := split_ws_go EmptyString s.

(** [sep.join(parts)] *)
Fixpoint join (sep : string) (parts : list string) : string :=
  match parts with
  | [] => EmptyString
  | [p] => p
  | p :: ps => p +:+ sep +:+ join sep ps
  end.

(** [s.replace(old, new)] for a non-empty [old]: leftmost,
    non-overlapping occurrences. [skip] counts the characters of the
    occurrence being consumed. *)
Fixpoint replace_go (old new : string) (skip : nat) (s : string) : string :=
  match s with
  | EmptyString => EmptyString
  | String c r =>
      match skip with
      | S k => replace_go old new k r
      | O =>
          if startswith old s
          then new +:+ replace_go old new (String.length old - 1) r
          else String c (replace_go old new 0 r)
      end
  end.
Definition replace (old new s : string) : string := replace_go old new 0 s.

(** [re.sub(pattern, "", s)] for a pattern that never matches the empty
    string. [m prev s] is the length of the match of the pattern at the
    current position, [prev] being the character before it (what [\b]
    looks at). *)
Fixpoint re_sub_empty (m : option ascii -> string -> option nat)
    (prev : option ascii) (skip : nat) (s : string) : string :=
  match s with
  | EmptyString => EmptyString
  | String c r =>
      match skip with
      | S k => re_sub_empty m (Some c) k r
      | O =>
          match m prev s with
          | Some (S n) => re_sub_empty m (Some c) n r
          | _ => String c (re_sub_empty m (Some c) 0 r)
          end
      end
  end.

(** First alternative of [a1|a2|...] (case-insensitive literals given in
    lower case) that matches at the head of [s] and whose continuation
    [ok] accepts the rest; the result is its length. *)
Fixpoint first_alt (alts : list string) (ok : string -> bool) (s : string)
    : option nat :=
  match alts with
  | [] => None
  | a :: more =>
      if startswith a (lower s) && ok (drop (String.length a) s)
      then Some (String.length a)
      else first_alt more ok s
  end.

Definition head_is (f : ascii -> bool) (s : string) : bool :=
  match s with String c _ => f c | EmptyString => false end.
Definition is_sep (c : ascii) : bool :=
  Ascii.eqb c "_"%char || Ascii.eqb c "-"%char.

(** [\b] after a word character: the next character is not one. *)
Definition boundary_after (rest : string) : bool := negb (head_is is_word rest).
(** [\b] before a word character: the previous character is not one. *)
Definition boundary_before (prev : option ascii) : bool :=
  match prev with Some c => negb (is_word c) | None => true end.

End PyStr.

Import PyStr.

(** ** Results of Python code that may raise *)

Inductive exn : Set := ValueError | OverflowError | IndexError.

Inductive result (A : Type) : Type :=
  | Return (a : A)
  | Raise (e : exn).
Arguments Return {A} a.
Arguments Raise {A} e.

#[export] Instance result_ret : MRet result := λ A a, Return a.
#[export] Instance result_bind : MBind result := λ A B k r,
  match r with
  | Return a => k a
  | Raise e => Raise e
  end.

(** A [for] loop whose body may raise. *)
Fixpoint foldM {A B : Type} (f : B -> A -> result B) (l : list A) (b : B) : result B :=
  match l with
  | [] => Return b
  | x :: r => b' ← f b x; foldM f r b'
  end.

(** [try: r except ValueError: dflt] *)
Definition except_ValueError {A : Type} (r : result A) (dflt : A) : result A :=
  match r with
  | Raise ValueError => Return dflt
  | other => other
  end.

(** The value of a run of digits with single underscores between them;
    [after_digit] tells whether the previous character was a digit. *)
Fixpoint digits_value (acc : Z) (after_digit : bool) (s : string) : option Z :=
  match s with
  | EmptyString => if after_digit then Some acc else None
  | String c r =>
      if is_digit c
      then digits_value (acc * 10 + Z.of_nat (nat_of_ascii c - 48)) true r
      else if Ascii.eqb c "_"%char && after_digit && head_is is_digit r
      then digits_value acc false r
      else None
  end.

(** [int(s)] on a string without surrounding whitespace: an optional sign,
    then decimal digits, single underscores allowed between digits.
    (CPython also takes the decimal digits of other scripts, and by default
    refuses more than 4300 digits; neither is modelled.) *)
Definition py_int (s : string) : result Z :=
  let '(neg, body) :=
    match s with
    | String "-"%char r => (true, r)
    | String "+"%char r => (false, r)
    | _ => (false, s)
    end in
  match digits_value 0 false body with
  | Some v => Return (if neg then - v else v)
  | None => Raise ValueError
  end.

(** [is_decimal s]: [s] is a non-empty string of decimal digits. *)
Fixpoint all_digits (s : string) : bool :=
  match s with
  | EmptyString => true
  | String c r => is_digit c && all_digits r
  end.
Definition is_decimal (s : string) : bool := head_is is_digit s && all_digits s.

(** ** Parsed pages, as BeautifulSoup exposes them *)

(** The value of [tag.get(attr)]: a string, or a list of strings for the
    multi-valued attributes ([class], [rel], ...). *)
Inductive AttrVal : Set :=
  | AStr (s : string)
  | AList (l : list string).

(** Python truthiness of [tag.get(attr)]. *)
Definition truthy_attr (v : option AttrVal) : bool :=
  match v with
  | None | Some (AStr EmptyString) | Some (AList []) => false
  | _ => true
  end.

(** [repr] of a [str]: the quote is a double quote when the string has a
    single quote and no double quote, a single quote otherwise; backslash,
    the quote and control characters are escaped. *)
Definition squote : ascii := ascii_of_nat 39.
Definition dquote : ascii := ascii_of_nat 34.
Definition backslash : ascii := ascii_of_nat 92.

Definition hex_digit (n : nat) : ascii :=
  if (n <? 10)%nat then ascii_of_nat (48 + n) else ascii_of_nat (87 + n).

Fixpoint repr_body (q : ascii) (s : string) : string :=
  match s with
  | EmptyString => EmptyString
  | String c r =>
      let n := nat_of_ascii c in
      let esc (e : ascii) := String backslash (String e (repr_body q r)) in
      if Ascii.eqb c backslash then esc backslash
      else if Ascii.eqb c q then esc q
      else if (n =? 10)%nat then esc "n"%char
      else if (n =? 13)%nat then esc "r"%char
      else if (n =? 9)%nat then esc "t"%char
      else if (n <? 32)%nat || (n =? 127)%nat
      then String backslash (String "x"%char
             (String (hex_digit (n / 16)) (String (hex_digit (n mod 16)) (repr_body q r))))
      else String c (repr_body q r)
  end.

(** [repr(s)] of a [str]. *)
Definition py_repr (s : string) : string :=
  let q := if str_in (String squote EmptyString) s
              && negb (str_in (String dquote EmptyString) s)
           then dquote else squote in
  String q (repr_body q s +:+ String q EmptyString).

(** [str(v)] of an attribute value; a list prints as a Python list display. *)
Definition py_str (v : AttrVal) : string :=
  match v with
  | AStr s => s
  | AList l => "[" +:+ join ", " (py_repr <$> l) +:+ "]"
  end.

(** An element of the parsed tree: its name, its attribute dictionary, the
    result of [get_text(" ", strip=True)] and its ancestors, nearest first
    (name and attributes of each). *)
Record Tag : Type := mkTag {
  tag_name : string;
  tag_attrs : gmap string AttrVal;
  tag_text : string;
  tag_ancestors : list (string * gmap string AttrVal);
}.

(** [tag.get(attr)] *)
Definition tag_get (t : Tag) (attr : string) : option AttrVal := tag_attrs t !! attr.

(** The parsed document: its elements in document order. *)
Definition Soup : Type := list Tag.

(** [soup.find_all(name)] *)
Definition find_all (soup : Soup) (name : string) : list Tag :=
  filter (λ t, tag_name t = name) soup.

(** ** The six components of [urlparse] *)

Module urllib.
Record ParseResult : Set := mkParseResult {
  scheme : string;
  netloc : string;
  path : string;
  params : string;
  query : string;
  fragment : string;
}.
(** [parsed._replace(fragment=f)], [_replace(query=q)], [_replace(path=p)] *)
Definition replace_fragment (p : ParseResult) (f : string) : ParseResult :=
  mkParseResult (scheme p) (netloc p) (path p) (params p) (query p) f.
Definition replace_query (p : ParseResult) (q : string) : ParseResult :=
  mkParseResult (scheme p) (netloc p) (path p) (params p) q (fragment p).
Definition replace_path (p : ParseResult) (x : string) : ParseResult :=
  mkParseResult (scheme p) (netloc p) x (params p) (query p) (fragment p).
End urllib.

(** A response of [session.get]. *)
Record Response : Type := mkResponse {
  status_code : Z;
  content_type : option string;   (* headers.get("content-type") *)
  content : string;               (* body bytes *)
  text : string;                  (* decoded body *)
}.

(** ** The library and runtime the script runs on

    [urllib.parse], [hashlib], [mimetypes], [pathlib], [bs4] and the float
    arithmetic of the descriptor score are not part of the repository; the
    script is verified against any implementation of them. [set_iter] is the
    order in which a [for] loop visits a set built from the given elements:
    some duplicate-free enumeration of them, fixed by the string hash seed of
    the process. *)
Class PyLib : Type := {
  urlparse : string -> urllib.ParseResult;
  urlunparse : urllib.ParseResult -> string;
  urljoin : string -> string -> string;
  (** [parse_qsl(q, keep_blank_values=True)] *)
  parse_qsl : string -> list (string * string);
  (** [int(float(s) * 1000)]: a value, [ValueError] or [OverflowError] *)
  float_x1000 : string -> result Z;
  float_x1000_raises :
    ∀ s e, float_x1000 s = Raise e → e = ValueError ∨ e = OverflowError;
  (** a decimal integer below 2^53 / 1000 is converted and scaled exactly *)
  float_x1000_decimal :
    ∀ s v, is_decimal s = true → py_int s = Return v → v * 1000 < 2 ^ 53 →
           float_x1000 s = Return (v * 1000);
  (** [hashlib.sha256(data).hexdigest()] *)
  sha256_hexdigest : string -> string;
  mimetypes_guess_extension : string -> option string;
  (** [Path(p).stem] and [Path(p).suffix] *)
  path_stem : string -> string;
  path_suffix : string -> string;
  (** [BeautifulSoup(text, "html.parser")] *)
  parse_html : string -> Soup;
  set_iter : list string -> list string;
  set_iter_NoDup : ∀ l, NoDup (set_iter l);
  set_iter_elem : ∀ l x, x ∈ set_iter l ↔ x ∈ l;
}.

(** ** The script *)

Definition PROFILE_MARKERS : list string :=
  ["avatar"; "profile"; "userpic"; "gravatar"; "author-photo"; "member-photo";
   "display-picture"].

Definition THUMB_HINTS : list string :=
  ["thumb"; "thumbnail"; "_tn"; "-tn"; "_sm"; "-sm"; "_small"; "-small";
   "small/"; "/small"].

Definition NEXT_TEXT_MARKERS : list string :=
  ["next"; "older"; "more"; "weiter"; "suivant"; "volgende"; "nast";
   "›"; "»"; ">>"; ">"].

Definition IMAGE_ATTRS : list string :=
  ["src"; "data-src"; "data-original"; "data-full"; "data-lazy-src"].

Definition URL_QUERY_THUMB_KEYS : gset string :=
  list_to_set ["w"; "h"; "width"; "height"; "size"; "thumb"; "thumbnail";
               "fit"; "crop"; "quality"].

Definition IMAGE_EXTENSIONS : list string :=
  [".jpg"; ".jpeg"; ".png"; ".gif"; ".webp"; ".bmp"; ".tif"; ".tiff"; ".svg";
   ".avif"; ".heic"].

Record ImageCandidate : Type := mkImageCandidate {
  page_url : string;
  urls : list string;
  skip_profile : bool;
}.

(** Truthiness of a [str] and of an [Optional[str]]. *)
Definition truthy (s : string) : bool := bool_decide (s ≠ EmptyString).
Definition truthy_opt (o : option string) : bool :=
  match o with Some s => truthy s | None => false end.

(** [keyword_match]: [any(k in value.lower() for k in keywords)] *)
Definition keyword_match (value : string) (keywords : list string) : bool :=
  let lowered := lower value in
  existsb (λ k, str_in k lowered) keywords.

(** The order-preserving dedup loop that the script writes three times:
<<
    for candidate in variants:
        if candidate not in seen:
            seen.add(candidate); deduped.append(candidate)
>>
    as one step on the pair [(deduped, seen)]. *)
Definition dedup_step (st : list string * gset string) (candidate : string)
    : list string * gset string :=
  if bool_decide (candidate ∉ st.2)
  then (st.1 ++ [candidate], {[candidate]} ∪ st.2)
  else st.

(** [re.sub(r"(?i)([_-])(thumb|thumbnail|small|sm|tn)\b", "", path)] *)
Definition match_sep_token (_ : option ascii) (s : string) : option nat :=
  match s with
  | String c r =>
      if is_sep c
      then S <$> first_alt ["thumb"; "thumbnail"; "small"; "sm"; "tn"] boundary_after r
      else None
  | EmptyString => None
  end.
Definition sub_sep_token (path : string) : string :=
  re_sub_empty match_sep_token None 0 path.

(** [re.sub(r"(?i)\b(thumb|thumbnail|small)[_-]", "", path)] *)
Definition match_token_sep (prev : option ascii) (s : string) : option nat :=
  if boundary_before prev
  then S <$> first_alt ["thumb"; "thumbnail"; "small"] (head_is is_sep) s
  else None.
Definition sub_token_sep (path : string) : string :=
  re_sub_empty match_token_sep None 0 path.

(** [token[:-1]] *)
Definition drop_last (s : string) : string := rev (drop 1 (rev s)).

(** [re.sub(r"[^a-z0-9._-]+", "_", text)] *)
Definition name_char (c : ascii) : bool :=
  is_lower c || is_digit c || Ascii.eqb c "."%char || is_sep c.
Fixpoint squash_other (in_run : bool) (s : string) : string :=
  match s with
  | EmptyString => EmptyString
  | String c r =>
      if name_char c then String c (squash_other false r)
      else if in_run then squash_other true r
      else String "_"%char (squash_other true r)
  end.

Definition sanitize_name (text : string) : string :=
  let text := lower (strip text) in
  let text := squash_other false text in
  let text := strip_by (λ c, Ascii.eqb c "."%char || Ascii.eqb c "_"%char) text in
  if truthy text then text else "image".

(** The six status strings of [download_image]. *)
Inductive Outcome : Set :=
  | downloaded
  | would_download
  | duplicate
  | skipped_profile
  | skipped_custom_keyword
  | failed_all_variants.

#[export] Instance Outcome_eq_dec : EqDecision Outcome.
Proof. solve_decision. Defined.

(** Who issued a [session.get]: the page loop or [download_image]. *)
Inductive Fetch : Set := PageGet | ImageGet.
#[export] Instance Fetch_eq_dec : EqDecision Fetch.
Proof. solve_decision. Defined.

(** The configuration that [parse_args] hands to the crawl;
    [output] is the resolved output root. *)
Record Args : Type := mkArgs {
  start_urls : list string;
  output : string;
  max_pages : Z;
  allow_cross_domain : bool;
  no_follow_content_links : bool;
  dry_run : bool;
  skip_url_keyword : list string;
}.

(** A row of [manifest.csv]. *)
Record Row : Type := mkRow {
  row_page_url : string;
  row_image_url : string;
  row_status : Outcome;
  row_saved_path : string;
  row_bytes : option Z;
  row_sha256 : string;
  row_variant_count : nat;
}.

(** The five summary counters. *)
Record Tally : Type := mkTally {
  n_downloaded : Z;
  n_would_download : Z;
  n_skipped_profile : Z;
  n_duplicates : Z;
  n_failed : Z;
}.

Definition count (status : Outcome) (t : Tally) : Tally :=
  match status with
  | downloaded =>
      mkTally (n_downloaded t + 1) (n_would_download t) (n_skipped_profile t)
              (n_duplicates t) (n_failed t)
  | would_download =>
      mkTally (n_downloaded t) (n_would_download t + 1) (n_skipped_profile t)
              (n_duplicates t) (n_failed t)
  | skipped_profile =>
      mkTally (n_downloaded t) (n_would_download t) (n_skipped_profile t + 1)
              (n_duplicates t) (n_failed t)
  | duplicate =>
      mkTally (n_downloaded t) (n_would_download t) (n_skipped_profile t)
              (n_duplicates t + 1) (n_failed t)
  | _ =>
      mkTally (n_downloaded t) (n_would_download t) (n_skipped_profile t)
              (n_duplicates t) (n_failed t + 1)
  end.

(** Python's order on [str]. *)
Definition str_le (a b : string) : Prop := String.leb a b = true.
#[export] Instance str_le_dec a b : Decision (str_le a b).
Proof. unfold str_le. apply _. Defined.

(** [sorted(s)] of a set of strings. *)
Definition sorted (s : gset string) : list string := merge_sort str_le (elements s).

(** What the crawl shares with [download_image] and the outside: the set
    [seen_hashes], the files written, and every [session.get] issued, the
    latest last. *)
Record Env : Type := mkEnv {
  seen_hashes : gset string;
  files : list (string * string);
  requests : list (Fetch * string);
}.

Definition get (kind : Fetch) (url : string) (env : Env) : Env :=
  mkEnv (seen_hashes env) (files env) (requests env ++ [(kind, url)]).

(** The variables of [crawl_and_download] that the loop updates. *)
Record Crawl : Type := mkCrawl {
  queue : list string;
  visited_pages : gset string;
  seen_image_urls : gset string;
  env : Env;
  total_pages : Z;
  tally : Tally;
  manifest : list Row;
}.

(** The result of one evaluation of the [while] condition and body. *)
Inductive Step : Type :=
  | Continue (st : Crawl)            (* next iteration of the [while] *)
  | Done (st : Crawl)                (* the [while] condition is false *)
  | Crash (e : exn) (st : Crawl).    (* an exception left the loop *)

(** How a run of the loop stands after at most [fuel] iterations. *)
Inductive Run : Type :=
  | Exit (code : Z) (st : Crawl)
  | Crashed (e : exn) (st : Crawl)
  | Running (st : Crawl).

Section Script.
Context `{PyLib}.
Import urllib.

Definition normalize_url (raw_url base_url : string) : option string :=
  let raw_url := strip raw_url in
  if negb (truthy raw_url) then None
  else if existsb (λ p, startswith p raw_url) ["javascript:"; "mailto:"; "tel:"; "#"]
  then None
  else
    let url := urljoin base_url raw_url in
    let parsed := urlparse url in
    if bool_decide (scheme parsed ∉ ["http"; "https"]) then None
    else
      let cleaned := replace_fragment parsed "" in
      Some (urlunparse cleaned).

Definition host_of (url : string) : string := lower (netloc (urlparse url)).

Definition looks_like_image_url (url : string) : bool :=
  let path := lower (path (urlparse url)) in
  existsb (λ ext, endswith ext path) IMAGE_EXTENSIONS.

(** The score of one srcset entry, [bits] being its whitespace-separated
    fields (the body of the loop from [score = 1] on). *)
Definition descriptor_score (bits : list string) : result Z :=
  match bits with
  | _ :: bit1 :: _ =>
      let token := lower (strip bit1) in
      if endswith "w" token
      then except_ValueError (py_int (drop_last token)) 1
      else if endswith "x" token
      then except_ValueError (float_x1000 (drop_last token)) 1
      else Return 1
  | _ => Return 1
  end.

(** One iteration of the loop of [parse_srcset_best] on the pair
    [(best_url, best_score)]. *)
Definition srcset_step (base_url : string) (best : option string * Z)
    (chunk : string) : result (option string * Z) :=
  let part := strip chunk in
  if negb (truthy part) then Return best
  else
    let bits := split_ws part in
    match bits with
    | [] => Raise IndexError
    | raw :: _ =>
        let candidate := normalize_url raw base_url in
        if negb (truthy_opt candidate) then Return best
        else
          score ← descriptor_score bits;
          if bool_decide (score > best.2) then Return (candidate, score)
          else Return best
    end.

Definition parse_srcset_best (srcset base_url : string) : result (option string) :=
  best ← foldM (srcset_step base_url) (split_on ","%char srcset) (None, -1);
  Return best.1.

Definition strip_thumbnail_query_params (url : string) : string :=
  let parsed := urlparse url in
  if negb (truthy (query parsed)) then url
  else
    let kept :=
      filter (λ kv, lower kv.1 ∉ URL_QUERY_THUMB_KEYS) (parse_qsl (query parsed)) in
    let new_query :=
      join "&" ((λ kv, if truthy kv.2 then kv.1 +:+ "=" +:+ kv.2 else kv.1) <$> kept) in
    urlunparse (replace_query parsed new_query).

(** The five path rewrites, in the order the set display lists them. *)
Definition path_rewrites (path : string) : list string :=
  [ replace "/thumb/" "/" path;
    replace "/thumbs/" "/" path;
    replace "/thumbnail/" "/" path;
    sub_sep_token path;
    sub_token_sep path ].

Definition guess_fullsize_variants (url : string) : list string :=
  let variants := [url] in
  let cleaned_query := strip_thumbnail_query_params url in
  let variants :=
    if bool_decide (cleaned_query ≠ url) then variants ++ [cleaned_query]
    else variants in
  let parsed := urlparse url in
  let path := path parsed in
  let path_variants := set_iter (path_rewrites path) in
  let variants :=
    foldl (λ variants p,
             if negb (truthy p) || bool_decide (p = path) then variants
             else variants ++ [urlunparse (replace_path parsed p)])
          variants path_variants in
  (foldl dedup_step ([], ∅) variants).1.

(** One pass of [for attr in (...)] collecting the strings to scan. *)
Definition scan_attr (attrs : gmap string AttrVal) (attrs_to_scan : list string)
    (attr : string) : list string :=
  match attrs !! attr with
  | Some (AList vals) => attrs_to_scan ++ vals
  | Some val => if truthy_attr (Some val) then attrs_to_scan ++ [py_str val]
                else attrs_to_scan
  | None => attrs_to_scan
  end.

Definition is_likely_profile_image (tag : Tag) (url : string) : bool :=
  let url_l := lower url in
  if keyword_match url_l PROFILE_MARKERS then true
  else
    let attrs_to_scan :=
      foldl (scan_attr (tag_attrs tag)) [] ["class"; "id"; "alt"; "title"] in
    let attrs_to_scan :=
      match tag_ancestors tag with
      | parent :: _ => foldl (scan_attr parent.2) attrs_to_scan ["class"; "id"]
      | [] => attrs_to_scan
      end in
    existsb (λ text, keyword_match text PROFILE_MARKERS) attrs_to_scan.

(** The body of the loop over [img] elements: the candidate the element
    yields, if any. *)
Definition img_candidate (page_url : string) (img : Tag)
    : result (option ImageCandidate) :=
  let srcset := tag_get img "srcset" in
  urls ←
    (if truthy_attr srcset
     then best ← parse_srcset_best (from_option py_str "" srcset) page_url;
          Return (match best with
                  | Some b => if truthy b then [b] else []
                  | None => []
                  end)
     else Return []);
  let urls :=
    foldl (λ urls attr,
             let raw := tag_get img attr in
             if truthy_attr raw
             then match normalize_url (from_option py_str "" raw) page_url with
                  | Some normalized =>
                      if truthy normalized then urls ++ [normalized] else urls
                  | None => urls
                  end
             else urls)
          urls IMAGE_ATTRS in
  let urls :=
    match tag_ancestors img with
    | parent :: _ =>
        if bool_decide (parent.1 = "a")
        then let href := parent.2 !! "href" in
             if truthy_attr href
             then match normalize_url (from_option py_str "" href) page_url with
                  | Some anchor_url =>
                      if truthy anchor_url && looks_like_image_url anchor_url
                      then anchor_url :: urls else urls
                  | None => urls
                  end
             else urls
        else urls
    | [] => urls
    end in
  let deduped_urls :=
    (foldl (λ st u, foldl dedup_step st (guess_fullsize_variants u)) ([], ∅) urls).1 in
  match deduped_urls with
  | first :: _ =>
      let skip_profile := is_likely_profile_image img first in
      Return (Some (mkImageCandidate page_url deduped_urls skip_profile))
  | [] => Return None
  end.

(** The body of the loop over [a] elements. *)
Definition anchor_candidate (page_url : string) (a : Tag) : option ImageCandidate :=
  let href := tag_get a "href" in
  if negb (truthy_attr href) then None
  else match normalize_url (from_option py_str "" href) page_url with
       | Some normalized =>
           if negb (truthy normalized) || negb (looks_like_image_url normalized)
           then None
           else if keyword_match normalized PROFILE_MARKERS then None
           else Some (mkImageCandidate page_url (guess_fullsize_variants normalized) false)
       | None => None
       end.

(** The final loop of [extract_image_candidates]; [candidate.urls[0]]
    raises [IndexError] on an empty tuple. *)
Definition first_url_step (st : list ImageCandidate * gset string)
    (candidate : ImageCandidate) : result (list ImageCandidate * gset string) :=
  match urls candidate with
  | [] => Raise IndexError
  | key :: _ =>
      if bool_decide (key ∈ st.2) then Return st
      else Return (st.1 ++ [candidate], {[key]} ∪ st.2)
  end.

Definition extract_image_candidates (soup : Soup) (page_url : string)
    : result (list ImageCandidate) :=
  out ← foldM (λ out img,
                 c ← img_candidate page_url img;
                 Return (match c with Some c => out ++ [c] | None => out end))
              (find_all soup "img") [];
  let out :=
    foldl (λ out a, match anchor_candidate page_url a with
                    | Some c => out ++ [c]
                    | None => out
                    end)
          out (find_all soup "a") in
  deduped ← foldM first_url_step out ([], ∅);
  Return deduped.1.

(** [" ".join(tag.get("rel", [])).lower() if tag.get("rel") else ""];
    joining a plain string joins its characters. *)
Definition rel_text (tag : Tag) : string :=
  match tag_get tag "rel" with
  | Some (AList l) => lower (join " " l)
  | Some (AStr s) =>
      lower (join " " ((λ c, String c EmptyString) <$> list_ascii_of_string s))
  | None => EmptyString
  end.

(** [str(tag.get(attr, ""))] *)
Definition attr_str (tag : Tag) (attr : string) : string :=
  from_option py_str "" (tag_get tag attr).

(** [re.search(r"[?&](page|p)=\d+", s)] *)
Definition key_eq_digit (key s : string) : bool :=
  startswith key s &&
  match drop (String.length key) s with
  | String "="%char rest => head_is is_digit rest
  | _ => false
  end.
Fixpoint search_page_param (s : string) : bool :=
  match s with
  | EmptyString => false
  | String c r =>
      ((Ascii.eqb c "?"%char || Ascii.eqb c "&"%char)
       && (key_eq_digit "page" r || key_eq_digit "p" r))
      || search_page_param r
  end.

(** [re.search(r"\d{4}", s)] *)
Fixpoint search_four_digits (run : nat) (s : string) : bool :=
  match s with
  | EmptyString => false
  | String c r =>
      if is_digit c
      then (if (3 <=? run)%nat then true else search_four_digits (S run) r)
      else search_four_digits 0 r
  end.

Definition is_next_link (tag : Tag) (href : string) : bool :=
  let rel := rel_text tag in
  if str_in "next" rel then true
  else
    let text := lower (tag_text tag) in
    let attrs :=
      lower (join " " [attr_str tag "class"; attr_str tag "id";
                       attr_str tag "aria-label"; attr_str tag "title"]) in
    let href_l := lower href in
    if keyword_match text NEXT_TEXT_MARKERS then true
    else if keyword_match attrs ["next"; "pagination"; "pager"; "older"; "newer"]
    then true
    else if search_page_param href_l then true
    else false.

Definition is_probable_content_link (tag : Tag) (href : string) : bool :=
  let href_l := lower href in
  let attrs :=
    lower (join " " [attr_str tag "class"; attr_str tag "id"; attr_str tag "rel"]) in
  let text := lower (tag_text tag) in
  if existsb (λ x, str_in x href_l)
       ["/post"; "/posts/"; "/blog/"; "/article"; "/topic"; "/thread"; "/forum/"]
  then true
  else if existsb (λ x, str_in x attrs) ["post"; "entry"; "topic"; "thread"; "article"]
  then true
  else if (15 <? String.length text)%nat && search_four_digits 0 href_l then true
  else false.

(** [re.compile(r"(pagination|pager|pagenav|nav-links)", re.I)] against a
    [class] attribute: bs4 tries each class and the whole value. *)
Definition pagination_class (attrs : gmap string AttrVal) : bool :=
  let words := ["pagination"; "pager"; "pagenav"; "nav-links"] in
  match attrs !! "class" with
  | Some (AList l) =>
      existsb (λ c, keyword_match c words) l || keyword_match (join " " l) words
  | Some (AStr s) => keyword_match s words
  | None => false
  end.

(** The normalized [href] of an element, when it has a usable one. *)
Definition href_of (page_url : string) (t : Tag) : option string :=
  let href := tag_get t "href" in
  if negb (truthy_attr href) then None
  else match normalize_url (from_option py_str "" href) page_url with
       | Some normalized => if truthy normalized then Some normalized else None
       | None => None
       end.

(** [discover_links]. The third loop visits the anchors below every
    element whose class matches the pagination pattern; the links go into
    a set, so it is modelled as the anchors having such an ancestor. *)
Definition discover_links (soup : Soup) (page_url : string)
    (follow_content_links : bool) : gset string * gset string :=
  let next_links : gset string :=
    foldl (λ next_links link,
             match href_of page_url link with
             | Some normalized =>
                 if str_in "next" (rel_text link) then {[normalized]} ∪ next_links
                 else next_links
             | None => next_links
             end)
          ∅ (find_all soup "link") in
  let '(next_links, content_links) :=
    foldl (λ (st : gset string * gset string) a,
             match href_of page_url a with
             | Some normalized =>
                 let next_links :=
                   if is_next_link a normalized then {[normalized]} ∪ st.1 else st.1 in
                 let content_links :=
                   if follow_content_links && is_probable_content_link a normalized
                   then {[normalized]} ∪ st.2 else st.2 in
                 (next_links, content_links)
             | None => st
             end)
          (next_links, ∅) (find_all soup "a") in
  let next_links :=
    foldl (λ next_links a,
             if existsb (λ anc : string * gmap string AttrVal, pagination_class anc.2)
                        (tag_ancestors a)
             then match href_of page_url a with
                  | Some normalized => {[normalized]} ∪ next_links
                  | None => next_links
                  end
             else next_links)
          next_links (find_all soup "a") in
  (next_links, content_links).

Definition guess_extension (url content_type : string) : string :=
  let path := path (urlparse url) in
  let suffix := lower (path_suffix path) in
  if bool_decide (suffix ∈ IMAGE_EXTENSIONS) then suffix
  else
    let mime := lower (strip (default "" (head (split_on ";"%char content_type)))) in
    match mimetypes_guess_extension mime with
    | Some guessed => if truthy guessed then guessed else ".jpg"
    | None => ".jpg"
    end.

(** *** Dedup and fetch resolver *)

(** [(status, saved_path, byte_count, digest)] *)
Definition Verdict : Type := Outcome * option string * option Z * option string.

(** The network: the response of a GET, or [None] for a
    [requests.RequestException]. *)
Variable web : string -> option Response.

(** The [for url in candidate.urls] loop of [download_image], on the
    URLs still to try. *)
Fixpoint download_image_from (candidate : ImageCandidate) (output_dir : string)
    (dry_run : bool) (skip_url_keywords : list string)
    (todo : list string) (env : Env) : Verdict * Env :=
  match todo with
  | [] => ((failed_all_variants, None, None, None), env)
  | url :: rest =>
      let continue := download_image_from candidate output_dir dry_run
                        skip_url_keywords rest in
      if keyword_match url skip_url_keywords
      then ((skipped_custom_keyword, None, None, None), env)
      else if skip_profile candidate
      then ((skipped_profile, None, None, None), env)
      else
        let env := get ImageGet url env in
        match web url with
        | None => continue env
        | Some resp =>
            if bool_decide (status_code resp >= 400) then continue env
            else
              let content_type := lower (default "" (content_type resp)) in
              if negb (str_in "image" content_type) && negb (looks_like_image_url url)
              then continue env
              else
                let data := content resp in
                if negb (truthy data) then continue env
                else if bool_decide (Z.of_nat (String.length data) < 512)
                        && keyword_match url THUMB_HINTS
                then continue env
                else
                  let digest := sha256_hexdigest data in
                  let len := Z.of_nat (String.length data) in
                  if bool_decide (digest ∈ seen_hashes env)
                  then ((duplicate, None, Some len, Some digest), env)
                  else if dry_run
                  then ((would_download, None, Some len, Some digest),
                        mkEnv ({[digest]} ∪ seen_hashes env) (files env) (requests env))
                  else
                    let ext := guess_extension url content_type in
                    let stem0 := path_stem (path (urlparse url)) in
                    let stem := sanitize_name (if truthy stem0 then stem0 else "image") in
                    let filename := stem +:+ "_" +:+ substring 0 12 digest +:+ ext in
                    let out_path := output_dir +:+ "/" +:+ filename in
                    ((downloaded, Some out_path, Some len, Some digest),
                     mkEnv ({[digest]} ∪ seen_hashes env)
                           (files env ++ [(out_path, data)]) (requests env))
        end
  end.

Definition download_image (candidate : ImageCandidate) (output_dir : string)
    (seen : Env) (dry_run : bool) (skip_url_keywords : list string)
    : Verdict * Env :=
  download_image_from candidate output_dir dry_run skip_url_keywords
    (urls candidate) seen.

Definition is_html_response (resp : Response) : bool :=
  let ctype := lower (default "" (content_type resp)) in
  str_in "text/html" ctype || str_in "application/xhtml+xml" ctype
  || negb (truthy ctype).

(** *** Crawl traversal *)

Section Loop.
Variable args : Args.
Variable allowed_hosts : gset string.
Variable skip_keywords : list string.

(** The [for candidate in candidates] loop; an exception leaves the
    loop with the state reached so far. *)
Fixpoint candidates_loop (page_url image_out_dir : string)
    (candidates : list ImageCandidate) (st : Crawl) : Crawl * option exn :=
  match candidates with
  | [] => (st, None)
  | candidate :: rest =>
      match urls candidate with
      | [] => (st, Some IndexError)
      | first_url :: _ =>
          if bool_decide (first_url ∈ seen_image_urls st)
          then candidates_loop page_url image_out_dir rest st
          else
            let '((status, saved_path, byte_count, digest), env') :=
              download_image candidate image_out_dir (env st)
                (dry_run args) skip_keywords in
            let row :=
              mkRow page_url first_url status (default "" saved_path) byte_count
                    (default "" digest) (length (urls candidate)) in
            candidates_loop page_url image_out_dir rest
              (mkCrawl (queue st) (visited_pages st)
                       ({[first_url]} ∪ seen_image_urls st) env'
                       (total_pages st) (count status (tally st))
                       (manifest st ++ [row]))
      end
  end.

(** The [for link in sorted(next_links | content_links)] loop. *)
Definition enqueue (visited : gset string) (queue : list string) (link : string)
    : list string :=
  if bool_decide (link ∈ visited) then queue
  else if negb (allow_cross_domain args)
          && bool_decide (host_of link ∉ allowed_hosts)
  then queue
  else queue ++ [link].

(** One evaluation of the [while] condition and body. *)
Definition crawl_step (st : Crawl) : Step :=
  match queue st with
  | [] => Done st
  | page_url :: queue' =>
      if negb (bool_decide (total_pages st < max_pages args)) then Done st
      else
        let popped v e n :=
          mkCrawl queue' v (seen_image_urls st) e n (tally st) (manifest st) in
        if bool_decide (page_url ∈ visited_pages st)
        then Continue (popped (visited_pages st) (env st) (total_pages st))
        else
          let visited := {[page_url]} ∪ visited_pages st in
          if negb (allow_cross_domain args)
             && bool_decide (host_of page_url ∉ allowed_hosts)
          then Continue (popped visited (env st) (total_pages st))
          else
            let env1 := get PageGet page_url (env st) in
            match web page_url with
            | None => Continue (popped visited env1 (total_pages st))
            | Some resp =>
                if bool_decide (status_code resp >= 400)
                   || negb (is_html_response resp)
                then Continue (popped visited env1 (total_pages st))
                else
                  let st1 := popped visited env1 (total_pages st + 1) in
                  let soup := parse_html (text resp) in
                  match extract_image_candidates soup page_url with
                  | Raise e => Crash e st1
                  | Return candidates =>
                      let host_folder := sanitize_name (host_of page_url) in
                      let image_out_dir :=
                        output args +:+ "/" +:+ host_folder +:+ "/images" in
                      match candidates_loop page_url image_out_dir candidates st1 with
                      | (st2, Some e) => Crash e st2
                      | (st2, None) =>
                          let '(next_links, content_links) :=
                            discover_links soup page_url
                              (negb (no_follow_content_links args)) in
                          Continue
                            (mkCrawl
                               (foldl (enqueue (visited_pages st2)) (queue st2)
                                      (sorted (next_links ∪ content_links)))
                               (visited_pages st2) (seen_image_urls st2) (env st2)
                               (total_pages st2) (tally st2) (manifest st2))
                      end
                  end
            end
  end.

Fixpoint crawl_loop (fuel : nat) (st : Crawl) : Run :=
  match fuel with
  | O => Running st
  | S fuel =>
      match crawl_step st with
      | Continue st' => crawl_loop fuel st'
      | Done st' => Exit 0 st'
      | Crash e st' => Crashed e st'
      end
  end.
End Loop.

Definition empty_env : Env := mkEnv ∅ [] [].
Definition initial (q : list string) : Crawl :=
  mkCrawl q ∅ ∅ empty_env 0 (mkTally 0 0 0 0 0) [].

(** The start URLs that survive normalization. *)
Definition valid_start_urls (args : Args) : list string :=
  omap (λ x, match normalize_url x x with
             | Some u => if truthy u then Some u else None
             | None => None
             end) (start_urls args).

Definition allowed_hosts_of (args : Args) : gset string :=
  list_to_set (host_of <$> valid_start_urls args).

Definition skip_keywords_of (args : Args) : list string :=
  (λ k, lower (strip k)) <$> filter (λ k, truthy (strip k) = true) (skip_url_keyword args).

Definition crawl_and_download (args : Args) (fuel : nat) : Run :=
  let start_urls := valid_start_urls args in
  match start_urls with
  | [] => Exit 2 (initial [])
  | _ =>
      crawl_loop args (allowed_hosts_of args) (skip_keywords_of args) fuel
        (initial start_urls)
  end.

End Script.

Arguments download_image_from {_} web candidate output_dir dry_run skip_url_keywords todo env.
Arguments download_image {_} web candidate output_dir seen dry_run skip_url_keywords.
Arguments candidates_loop {_} web args skip_keywords page_url image_out_dir candidates st.
Arguments crawl_step {_} web args allowed_hosts skip_keywords st.
Arguments crawl_loop {_} web args allowed_hosts skip_keywords fuel st.
Arguments crawl_and_download {_} web args fuel.

(** ** A small implementation of the library, for running examples

    It follows CPython on plain URLs [scheme://host/path?query#fragment]
    (no [;params], percent escapes, dot segments, control characters or
    brackets), on references that are absolute or start with [/], on
    descriptors that are decimal integers or spell [inf] and [nan], and on file
    names with at most one dot. The digest is a stand-in that keeps the body
    apart byte for byte. The iteration order of sets and the parsed pages
    are parameters. *)
Module Reference.
Import urllib.

Definition scheme_char (c : ascii) : bool :=
  is_word c && negb (Ascii.eqb c "_"%char)
  || Ascii.eqb c "+"%char || Ascii.eqb c "-"%char || Ascii.eqb c "."%char.

(** [s.partition(c)] on the first character satisfying [f]: the text
    before it and, when there is one, the text after it. *)
Fixpoint cut (f : ascii -> bool) (s : string) : string * option string :=
  match s with
  | EmptyString => (EmptyString, None)
  | String c r =>
      if f c then (EmptyString, Some r)
      else let '(a, b) := cut f r in (String c a, b)
  end.

Fixpoint all_chars (f : ascii -> bool) (s : string) : bool :=
  match s with
  | EmptyString => true
  | String c r => f c && all_chars f r
  end.

Fixpoint take_until (f : ascii -> bool) (s : string) : string * string :=
  match s with
  | EmptyString => (EmptyString, EmptyString)
  | String c r =>
      if f c then (EmptyString, s)
      else let '(a, b) := take_until f r in (String c a, b)
  end.

Definition ref_urlparse (url : string) : ParseResult :=
  let '(sch, url) :=
    match cut (Ascii.eqb ":"%char) url with
    | (String c0 pre, Some rest) =>
        if (is_lower c0 || is_upper c0) && all_chars scheme_char pre
        then (lower (String c0 pre), rest) else (EmptyString, url)
    | _ => (EmptyString, url)
    end in
  let '(loc, url) :=
    if startswith "//" url
    then take_until (λ c, Ascii.eqb c "/"%char || Ascii.eqb c "?"%char
                          || Ascii.eqb c "#"%char) (drop 2 url)
    else (EmptyString, url) in
  let '(url, frag) := cut (Ascii.eqb "#"%char) url in
  let '(url, qry) := cut (Ascii.eqb "?"%char) url in
  mkParseResult sch loc url EmptyString (default "" qry) (default "" frag).

Definition ref_urlunparse (p : ParseResult) : string :=
  let url := if truthy (params p) then path p +:+ ";" +:+ params p else path p in
  let url :=
    if truthy (netloc p)
       || (bool_decide (scheme p ∈ ["http"; "https"]) && negb (startswith "//" url))
    then "//" +:+ netloc p +:+
         (if truthy url && negb (startswith "/" url) then "/" +:+ url else url)
    else url in
  let url := if truthy (scheme p) then scheme p +:+ ":" +:+ url else url in
  let url := if truthy (query p) then url +:+ "?" +:+ query p else url in
  if truthy (fragment p) then url +:+ "#" +:+ fragment p else url.

Definition dirname (path : string) : string :=
  rev (snd (take_until (Ascii.eqb "/"%char) (rev path))).

Definition ref_urljoin (base url : string) : string :=
  let b := ref_urlparse base in
  let u := ref_urlparse url in
  if truthy (scheme u) && negb (bool_decide (scheme u = scheme b)) then url
  else if truthy (netloc u)
  then ref_urlunparse (mkParseResult (scheme b) (netloc u) (path u) (params u)
                                     (query u) (fragment u))
  else if negb (truthy (path u))
  then ref_urlunparse (mkParseResult (scheme b) (netloc b) (path b) (params b)
                         (if truthy (query u) then query u else query b) (fragment u))
  else if startswith "/" (path u)
  then ref_urlunparse (mkParseResult (scheme b) (netloc b) (path u) (params u)
                                     (query u) (fragment u))
  else ref_urlunparse (mkParseResult (scheme b) (netloc b) (dirname (path b) +:+ path u)
                                     (params u) (query u) (fragment u)).

Definition ref_parse_qsl (q : string) : list (string * string) :=
  omap (λ nv, if truthy nv
              then let '(k, v) := cut (Ascii.eqb "="%char) nv in Some (k, default "" v)
              else None)
       (split_on "&"%char q).

Definition ref_float_x1000 (s : string) : result Z :=
  let body := match s with
              | String "-"%char r | String "+"%char r => r
              | _ => s
              end in
  match py_int s with
  | Return v => Return (v * 1000)
  | Raise _ =>
      if bool_decide (lower body ∈ ["inf"; "infinity"]) then Raise OverflowError
      else Raise ValueError
  end.

Definition ref_sha256 (data : string) : string := "sha256-of-" +:+ data.

Definition ref_guess_extension (mime : string) : option string :=
  if bool_decide (mime = "image/jpeg") then Some ".jpg"
  else if bool_decide (mime = "image/png") then Some ".png"
  else if bool_decide (mime = "image/gif") then Some ".gif"
  else None.

Definition basename (path : string) : string :=
  rev (fst (take_until (Ascii.eqb "/"%char) (rev path))).
Definition ref_suffix (path : string) : string :=
  let name := basename path in
  match cut (Ascii.eqb "."%char) name with
  | (String _ _, Some (String c r)) => "." +:+ String c r
  | _ => EmptyString
  end.
Definition ref_stem (path : string) : string :=
  let name := basename path in
  match cut (Ascii.eqb "."%char) name with
  | (String c r, Some (String _ _)) => String c r
  | _ => name
  end.

Definition ref_parse_html (docs : list (string * Soup)) (text : string) : Soup :=
  match list_find (λ d, d.1 = text) docs with
  | Some (_, d) => d.2
  | None => []
  end.

(** Two iteration orders of a set: by first insertion, and the reverse. *)
Definition insertion_order (l : list string) : list string :=
  reverse (remove_dups (reverse l)).
Definition reverse_order (l : list string) : list string :=
  remove_dups (reverse l).

Lemma insertion_order_NoDup l : NoDup (insertion_order l).
Proof. unfold insertion_order. rewrite reverse_Permutation. apply NoDup_remove_dups. Qed.
Lemma insertion_order_elem l x : x ∈ insertion_order l ↔ x ∈ l.
Proof.
  unfold insertion_order.
  by rewrite elem_of_reverse, elem_of_remove_dups, elem_of_reverse.
Qed.
Lemma reverse_order_NoDup l : NoDup (reverse_order l).
Proof. apply NoDup_remove_dups. Qed.
Lemma reverse_order_elem l x : x ∈ reverse_order l ↔ x ∈ l.
Proof. unfold reverse_order. by rewrite elem_of_remove_dups, elem_of_reverse. Qed.

Lemma ref_float_x1000_raises s e :
  ref_float_x1000 s = Raise e → e = ValueError ∨ e = OverflowError.
Proof.
  unfold ref_float_x1000. destruct (py_int s); [done|].
  case_bool_decide; intros [= <-]; [by right|by left].
Qed.

Lemma ref_float_x1000_decimal s v :
  is_decimal s = true → py_int s = Return v → v * 1000 < 2 ^ 53 →
  ref_float_x1000 s = Return (v * 1000).
Proof. intros _ Hv _. unfold ref_float_x1000. by rewrite Hv. Qed.

Definition lib_with (docs : list (string * Soup)) (iter : list string -> list string)
    (iter_NoDup : ∀ l, NoDup (iter l)) (iter_elem : ∀ l x, x ∈ iter l ↔ x ∈ l)
    : PyLib :=
  {| urlparse := ref_urlparse;
     urlunparse := ref_urlunparse;
     urljoin := ref_urljoin;
     parse_qsl := ref_parse_qsl;
     float_x1000 := ref_float_x1000;
     float_x1000_raises := ref_float_x1000_raises;
     float_x1000_decimal := ref_float_x1000_decimal;
     sha256_hexdigest := ref_sha256;
     mimetypes_guess_extension := ref_guess_extension;
     path_stem := ref_stem;
     path_suffix := ref_suffix;
     parse_html := ref_parse_html docs;
     set_iter := iter;
     set_iter_NoDup := iter_NoDup;
     set_iter_elem := iter_elem |}.

(** A process whose sets iterate in insertion order, and one whose sets
    iterate the other way round. *)
Definition lib (docs : list (string * Soup)) : PyLib :=
  lib_with docs insertion_order insertion_order_NoDup insertion_order_elem.
Definition lib' (docs : list (string * Soup)) : PyLib :=
  lib_with docs reverse_order reverse_order_NoDup reverse_order_elem.

End Reference.

(** ** Vocabulary of the properties *)

(** The status string and the digest of what [download_image] returns. *)
Definition status_of (v : Verdict) : Outcome := v.1.1.1.


(** [len(data)] *)
Definition byte_count (data : string) : Z := Z.of_nat (String.length data).

(** The state a run has reached. *)
Definition state_of (r : Run) : Crawl :=
  match r with
  | Exit _ st | Crashed _ st | Running st => st
  end.

(** The state after one iteration. *)
Definition step_state (s : Step) : Crawl :=
  match s with Continue st | Done st | Crash _ st => st end.

(** The run has left the [while] loop. *)
Definition halted (r : Run) : Prop :=
  match r with Running _ => False | _ => True end.

(** The URLs of the GETs of one kind, in the order they were issued. *)
Definition gets (kind : Fetch) (reqs : list (Fetch * string)) : list string :=
  snd <$> filter (λ r, r.1 = kind) reqs.

(** [candidate.urls[0]] exists. *)
Definition has_first (c : ImageCandidate) : Prop :=
  ∃ first rest, urls c = first :: rest.

(** Some character of [s] satisfies [f]. *)
Fixpoint some_char (f : ascii -> bool) (s : string) : bool :=
  match s with
  | EmptyString => false
  | String c r => f c || some_char f r
  end.

(** [s] has no space in it. *)
Fixpoint no_space (s : string) : bool :=
  match s with
  | EmptyString => true
  | String c r => negb (Ascii.eqb c " "%char) && no_space r
  end.



(** The classification as the specification words it: [rel] contains
    [next]; or the text or one of [aria-label], [title], [class], [id]
    contains a marker of [NEXT_TEXT_MARKERS]; or [class] or [id] contains
    one of [pagination], [pager], [older], [newer]; or the URL has a numeric
    [page=] or [p=] parameter. *)
Definition is_next_link_as_stated (tag : Tag) (href : string) : bool :=
  str_in "next" (rel_text tag)
  || keyword_match (tag_text tag) NEXT_TEXT_MARKERS
  || existsb (λ attr, keyword_match (attr_str tag attr) NEXT_TEXT_MARKERS)
       ["aria-label"; "title"; "class"; "id"]
  || existsb (λ attr, keyword_match (attr_str tag attr)
                        ["pagination"; "pager"; "older"; "newer"])
       ["class"; "id"]
  || search_page_param (lower href).

Section Vocabulary.
Context `{PyLib}.
Import urllib.

(** The variant a rewritten path [p] stands for. *)
Definition with_path (url p : string) : string :=
  urlunparse (replace_path (urlparse url) p).

(** A rewrite counts when it leaves a non-empty path other than the
    original one. *)
Definition changes_path (url p : string) : Prop :=
  p ≠ EmptyString ∧ p ≠ path (urlparse url).

(** The list of variants before the dedup loop. *)
Definition raw_variants (url : string) : list string :=
  url ::
  (if bool_decide (strip_thumbnail_query_params url ≠ url)
   then [strip_thumbnail_query_params url] else [])
  ++ (with_path url <$>
        filter (changes_path url) (set_iter (path_rewrites (path (urlparse url))))).

(** The file a downloaded body is written to. *)
Definition saved_path (output_dir url ctype digest : string) : string :=
  let stem0 := path_stem (urllib.path (urlparse url)) in
  output_dir +:+ "/" +:+
  (sanitize_name (if truthy stem0 then stem0 else "image") +:+ "_"
   +:+ substring 0 12 digest +:+ guess_extension url ctype).



Section Network.
Variable web : string -> option Response.

(** The body of a variant that passes every check between the GET and
    the digest, with its lower-cased content type; [None] when the GET
    fails or a check sends the loop to the next variant. *)
Definition accepted (url : string) : option (string * string) :=
  match web url with
  | None => None
  | Some resp =>
      let ctype := lower (default "" (content_type resp)) in
      let data := content resp in
      if bool_decide (status_code resp >= 400) then None
      else if negb (str_in "image" ctype) && negb (looks_like_image_url url) then None
      else if negb (truthy data) then None
      else if bool_decide (Z.of_nat (String.length data) < 512)
              && keyword_match url THUMB_HINTS then None
      else Some (ctype, data)
  end.

End Network.

Section Invariant.
Variable args : Args.
Variable allowed_hosts : gset string.

(** The invariant of the [while] loop: the page GETs are pairwise
    distinct, of visited pages and (with cross-domain mode off) of allowed
    hosts; the rows have pairwise distinct image URLs, which are the
    members of [seen_image_urls]. *)
Definition inv_of (visited seen : gset string) (reqs : list (Fetch * string))
    (rows : list Row) : Prop :=
  NoDup (gets PageGet reqs)
  ∧ (∀ u, u ∈ gets PageGet reqs → u ∈ visited)
  ∧ (allow_cross_domain args = false →
     ∀ u, u ∈ gets PageGet reqs → host_of u ∈ allowed_hosts)
  ∧ NoDup (row_image_url <$> rows)
  ∧ seen = list_to_set (row_image_url <$> rows).

(** The invariant on a state of the crawl. *)
Definition crawl_inv (st : Crawl) : Prop :=
  inv_of (visited_pages st) (seen_image_urls st) (requests (env st)) (manifest st).

End Invariant.

End Vocabulary.

(** Every character of [s] satisfies [f]. *)
Fixpoint each_char (f : ascii -> bool) (s : string) : bool :=
  match s with
  | EmptyString => true
  | String c r => f c && each_char f r
  end.

(** The strings that [is_likely_profile_image] scans for an attribute: the
    items of a multi-valued attribute, or the value of a plain one. *)
Definition attr_texts (v : option AttrVal) : list string :=
  match v with
  | Some (AList l) => l
  | Some (AStr s) => [s]
  | None => []
  end.

(** [candidate.urls[0]], when there is one. *)
Definition first_of (c : ImageCandidate) : option string := head (urls c).


(** The rows of one status, and the rows whose bytes were kept. *)
Definition rows_with (status : Outcome) (rows : list Row) : list Row :=
  filter (λ r, row_status r = status) rows.

Definition kept_rows (rows : list Row) : list Row :=
  filter (λ r, row_status r ∈ [downloaded; would_download]) rows.

(** The folder the images of a page go to:
    [output_root / host_folder / "images"]. *)
Definition images_dir `{PyLib} (args : Args) (page : string) : string :=
  output args +:+ "/" +:+ sanitize_name (host_of page) +:+ "/images".

(** What a written file and a row of the manifest say about a download:
    the path, the digest of the bytes and their number. *)
Definition file_facts `{PyLib} (f : string * string) : string * string * option Z :=
  (f.1, sha256_hexdigest f.2, Some (byte_count f.2)).

Definition row_facts (r : Row) : string * string * option Z :=
  (row_saved_path r, row_sha256 r, row_bytes r).

(** The counters are the numbers of rows of each status; [failed] counts
    the rows of the two statuses that have no counter of their own. *)
Definition tally_ok (t : Tally) (rows : list Row) : Prop :=
  let n status := Z.of_nat (length (rows_with status rows)) in
  n_downloaded t = n downloaded
  ∧ n_would_download t = n would_download
  ∧ n_skipped_profile t = n skipped_profile
  ∧ n_duplicates t = n duplicate
  ∧ n_failed t = n failed_all_variants + n skipped_custom_keyword.

(** The files written are those of the [downloaded] rows, in order; only
    those rows have a path, which lies in the images folder of the row's page;
    [downloaded] rows are of real runs and [would_download] rows of dry runs. *)
Definition files_ok `{PyLib} (args : Args) (fs : list (string * string))
    (rows : list Row) : Prop :=
  file_facts <$> fs = row_facts <$> rows_with downloaded rows
  ∧ Forall (λ r, row_status r ≠ downloaded → row_saved_path r = EmptyString) rows
  ∧ Forall (λ r, row_status r = downloaded →
                 dry_run args = false
                 ∧ ∃ name, row_saved_path r
                           = images_dir args (row_page_url r) +:+ "/" +:+ name) rows
  ∧ Forall (λ r, row_status r = would_download → dry_run args = true) rows.

(** [seen_hashes] is the set of the digests of the kept rows, which are
    pairwise distinct; a [duplicate] row has the digest of an earlier kept row. *)
Definition digests_ok (hashes : gset string) (rows : list Row) : Prop :=
  hashes = list_to_set (row_sha256 <$> kept_rows rows)
  ∧ NoDup (row_sha256 <$> kept_rows rows)
  ∧ ∀ i r, rows !! i = Some r → row_status r = duplicate →
           ∃ j r', (j < i)%nat ∧ rows !! j = Some r'
                   ∧ row_status r' ∈ [downloaded; would_download]
                   ∧ row_sha256 r' = row_sha256 r.

(** The page counter stays within the page budget and counts fetched
    pages; every row is of a fetched page. *)
Definition pages_ok (args : Args) (st : Crawl) : Prop :=
  (0 ≤ total_pages st)%Z
  ∧ (total_pages st ≤ Z.max 0 (max_pages args))%Z
  ∧ (total_pages st ≤ Z.of_nat (length (gets PageGet (requests (env st)))))%Z
  ∧ Forall (λ r, row_page_url r ∈ gets PageGet (requests (env st))) (manifest st).

(** With cross-domain crawling off, only URLs of allowed hosts are queued. *)
Definition queue_ok `{PyLib} (args : Args) (allowed_hosts : gset string)
    (st : Crawl) : Prop :=
  allow_cross_domain args = false →
  Forall (λ url, host_of url ∈ allowed_hosts) (queue st).

(** All of it, on a state of the crawl. *)
Definition books_ok `{PyLib} (args : Args) (allowed_hosts : gset string)
    (st : Crawl) : Prop :=
  tally_ok (tally st) (manifest st)
  ∧ files_ok args (files (env st)) (manifest st)
  ∧ digests_ok (seen_hashes (env st)) (manifest st)
  ∧ pages_ok args st
  ∧ queue_ok args allowed_hosts st.

(** [url] came out of [normalize_url]. *)
Definition normalized `{PyLib} (url : string) : Prop :=
  ∃ raw base, normalize_url raw base = Some url.

(** [url] is one of the variants of a URL that came out of [normalize_url]. *)
Definition variant_of_normalized `{PyLib} (url : string) : Prop :=
  ∃ source, normalized source ∧ url ∈ guess_fullsize_variants source.

(** The queue and the requests hold such URLs only. *)
Definition requests_ok `{PyLib} (st : Crawl) : Prop :=
  Forall normalized (queue st)
  ∧ Forall normalized (gets PageGet (requests (env st)))
  ∧ Forall variant_of_normalized (gets ImageGet (requests (env st))).

(** ** Example worlds *)

Module Examples.
Import Reference.

Fixpoint filler (n : nat) (c : ascii) : string :=
  match n with
  | O => EmptyString
  | S k => String c (filler k c)
  end.

Definition img (src : string) : Tag :=
  mkTag "img" {[ "src" := AStr src ]} "" [("body", ∅); ("html", ∅)].
Definition anchor (attrs : gmap string AttrVal) (text : string) : Tag :=
  mkTag "a" attrs text [("body", ∅); ("html", ∅)].

Definition html_page (text : string) : Response :=
  mkResponse 200 (Some "text/html; charset=utf-8") text text.
Definition jpeg (data : string) : Response :=
  mkResponse 200 (Some "image/jpeg") data EmptyString.
Definition not_found : Response :=
  mkResponse 404 (Some "text/html") "gone" "gone".

(** A network given by a table of URLs; anything else fails to connect. *)
Definition table (rows : list (string * Response)) (url : string) : option Response :=
  match list_find (λ r, r.1 = url) rows with
  | Some (_, r) => Some r.2
  | None => None
  end.

Definition args_for (start : string) : Args :=
  mkArgs [start] "/out" 2000 false false false [].

(** *** A blog page showing an image hosted elsewhere *)
Definition blog_html : string := "<img src='http://cdn.example/x.jpg'>".
Definition blog_docs : list (string * Soup) :=
  [(blog_html, [img "http://cdn.example/x.jpg"])].
Definition blog_web : string -> option Response :=
  table [("http://blog.example/", html_page blog_html);
         ("http://cdn.example/x.jpg", jpeg (filler 2000 "x"))].

(** *** A page whose only link is a [rel=next] link to itself *)
Definition loop_html : string := "<a rel='next' href='/'>next</a>".
Definition loop_docs : list (string * Soup) :=
  [(loop_html, [anchor {[ "rel" := AList ["next"]; "href" := AStr "/" ]} "next"])].
Definition loop_web : string -> option Response :=
  table [("http://loop.example/", html_page loop_html)].

(** *** A thumbnail with two full-size guesses that both exist *)
Definition thumb_html : string := "<img src='/thumb/a-small.jpg'>".
Definition thumb_docs : list (string * Soup) :=
  [(thumb_html, [img "/thumb/a-small.jpg"])].
Definition thumb_web : string -> option Response :=
  table [("http://h.example/", html_page thumb_html);
         ("http://h.example/thumb/a-small.jpg", not_found);
         ("http://h.example/a-small.jpg", jpeg (filler 600 "A"));
         ("http://h.example/thumb/a.jpg", jpeg (filler 600 "B"))].

(** *** The thumbnail of the end-to-end scenario *)
Definition cat_html : string := "<img src='/img/cat-thumb.jpg'>".
Definition cat_docs : list (string * Soup) :=
  [(cat_html, [img "/img/cat-thumb.jpg"])].
Definition cat_web : string -> option Response :=
  table [("http://h.example/", html_page cat_html);
         ("http://h.example/img/cat-thumb.jpg", not_found);
         ("http://h.example/img/cat.jpg", jpeg (filler 2000 "c"))].

End Examples.

(** * Properties *)

(** ** The order-preserving dedup loop *)

Section Dedup.

(** Running the loop from [(acc, seen)] over [l] appends to [acc] the
    elements of [l] that are not in [seen], each once, at the place of its
    first occurrence. *)
Lemma dedup_loop_spec (l : list string) :
  ∀ (acc : list string) (seen : gset string),
    ∃ more,
      foldl dedup_step (acc, seen) l = (acc ++ more, list_to_set more ∪ seen)
      ∧ NoDup more
      ∧ (∀ x, x ∈ more ↔ x ∈ l ∧ x ∉ seen)
      ∧ more `sublist_of` l.
Proof.
  induction l as [|a l IH]; intros acc seen; simpl.
  - exists []. rewrite app_nil_r. split_and!.
    + f_equal. simpl. by rewrite (left_id_L ∅ (∪)).
    + constructor.
    + intros x. split; [by intros ?%elem_of_nil | by intros [?%elem_of_nil _]].
    + constructor.
  - unfold dedup_step at 2. simpl. case_bool_decide as Ha.
    + destruct (IH (acc ++ [a]) ({[a]} ∪ seen)) as (more & Heq & Hnd & Hin & Hsub).
      exists (a :: more). rewrite Heq. split_and!.
      * f_equal; [by rewrite <- app_assoc |].
        simpl. by rewrite (assoc_L (∪)), (comm_L (∪) (list_to_set more)).
      * constructor; [|done]. intros [_ Hn]%Hin. apply Hn.
        apply elem_of_union_l, elem_of_singleton. done.
      * intros x. rewrite !elem_of_cons, Hin, not_elem_of_union, elem_of_singleton.
        destruct (decide (x = a)) as [->|]; tauto.
      * by constructor.
    + destruct (IH acc seen) as (more & Heq & Hnd & Hin & Hsub).
      exists more. rewrite Heq. split_and!; [done|done| |by constructor].
      intros x. rewrite Hin, elem_of_cons. split; [tauto|].
      intros [[-> | Hx] Hs]; done.
Qed.

Lemma dedup_loop_fresh (l : list string) :
  ∃ out, foldl dedup_step ([], ∅) l = (out, list_to_set out)
         ∧ NoDup out ∧ (∀ x, x ∈ out ↔ x ∈ l) ∧ out `sublist_of` l.
Proof.
  destruct (dedup_loop_spec l [] ∅) as (more & Heq & Hnd & Hin & Hsub).
  exists more. rewrite Heq. split_and!; [|done| |done].
  - f_equal. by rewrite (right_id_L ∅ (∪)).
  - intros x. rewrite Hin. split; [tauto|]. intros ?. split; [done|].
    apply not_elem_of_empty.
Qed.

(** The first element always survives, in first place. *)
Lemma dedup_loop_head (a : string) (l : list string) :
  ∃ rest, (foldl dedup_step ([], ∅) (a :: l)).1 = a :: rest
          ∧ NoDup (a :: rest) ∧ (∀ x, x ∈ a :: rest ↔ x ∈ a :: l).
Proof.
  simpl. unfold dedup_step at 2. simpl.
  rewrite bool_decide_eq_true_2 by apply not_elem_of_empty.
  destruct (dedup_loop_spec l [a] ({[a]} ∪ ∅)) as (more & Heq & Hnd & Hin & _).
  rewrite Heq. simpl. exists more. split_and!; [done| |].
  - constructor; [|done]. intros [_ Hn]%Hin. apply Hn.
    apply elem_of_union_l, elem_of_singleton. done.
  - intros x. rewrite !elem_of_cons, Hin, not_elem_of_union, elem_of_singleton.
    pose proof (not_elem_of_empty (C:=gset string) x).
    destruct (decide (x = a)); tauto.
Qed.

End Dedup.

(** ** Variant resolver *)

Section VariantResolver.
Context `{PyLib}.
Import urllib.

Lemma append_variants_loop (url : string) (ps init : list string) :
  foldl (λ variants p,
           if negb (truthy p) || bool_decide (p = path (urlparse url)) then variants
           else variants ++ [urlunparse (replace_path (urlparse url) p)])
        init ps
  = init ++ (with_path url <$> filter (changes_path url) ps).
Proof.
  revert init. induction ps as [|p ps IH]; intros init; simpl.
  - by rewrite app_nil_r.
  - rewrite IH. unfold truthy, filter. simpl.
    destruct (decide (changes_path url p)) as [[H1 H2]|Hn].
    + rewrite (bool_decide_eq_true_2 _ H1), (bool_decide_eq_false_2 _ H2). simpl.
      by rewrite <- app_assoc.
    + destruct (decide (p = EmptyString)) as [->|H1].
      * by rewrite bool_decide_eq_false_2 by (intros ?; done).
      * rewrite (bool_decide_eq_true_2 _ H1). simpl.
        rewrite bool_decide_eq_true_2; [done|].
        destruct (decide (p = path (urlparse url))); [done|].
        destruct Hn. by split.
Qed.

Lemma guess_fullsize_variants_unfold (url : string) :
  guess_fullsize_variants url = (foldl dedup_step ([], ∅) (raw_variants url)).1.
Proof.
  unfold guess_fullsize_variants, raw_variants.
  rewrite append_variants_loop. by case_bool_decide.
Qed.

(** The output of the variant resolver: the input first, no duplicates,
    and exactly the query-stripped variant (when it differs from the
    input) and the variants of the rewrites that change the path. *)
Lemma guess_fullsize_variants_spec (url : string) :
  ∃ rest,
    guess_fullsize_variants url = url :: rest
    ∧ NoDup (url :: rest)
    ∧ ∀ v, v ∈ url :: rest ↔
           v = url
           ∨ (v = strip_thumbnail_query_params url ∧ v ≠ url)
           ∨ ∃ p, p ∈ path_rewrites (path (urlparse url))
                  ∧ changes_path url p ∧ v = with_path url p.
Proof.
  rewrite guess_fullsize_variants_unfold. unfold raw_variants.
  destruct (dedup_loop_head url
    ((if bool_decide (strip_thumbnail_query_params url ≠ url)
      then [strip_thumbnail_query_params url] else [])
     ++ (with_path url <$>
           filter (changes_path url) (set_iter (path_rewrites (path (urlparse url)))))))
    as (rest & Heq & Hnd & Hin).
  exists rest. split_and!; [done|done|].
  intros v. rewrite Hin, elem_of_cons, elem_of_app, list_elem_of_fmap.
  apply or_iff_compat_l.
  match goal with |- ?A ∨ ?B ↔ ?C ∨ ?D =>
    assert (A ↔ C) as H1; [|assert (B ↔ D) as H2; [|tauto]] end.
  - case_bool_decide as Hc.
    + rewrite list_elem_of_singleton. split; [by intros ->|tauto].
    + rewrite elem_of_nil. split; [done|]. intros [-> Hv]. done.
  - split.
    + intros (p & -> & [Hp Hi]%list_elem_of_filter). exists p.
      by rewrite <- (set_iter_elem _ p).
    + intros (p & Hp & Hc & ->). exists p. split; [done|].
      apply list_elem_of_filter. by rewrite set_iter_elem.
Qed.

(** When the query strip returns the input and no rewrite changes the
    path, the input is the only variant. *)
Lemma guess_fullsize_variants_alone (url : string) :
  strip_thumbnail_query_params url = url →
  (∀ p, p ∈ path_rewrites (path (urlparse url)) → ¬ changes_path url p) →
  guess_fullsize_variants url = [url].
Proof.
  intros Hq Hp. destruct (guess_fullsize_variants_spec url) as (rest & -> & Hnd & Hin).
  f_equal. destruct rest as [|v rest]; [done|exfalso].
  assert (v ∈ url :: v :: rest) as Hv by (apply elem_of_cons; right; left).
  apply Hin in Hv as [-> | [[-> Hne] | (p & Hp1 & Hp2 & _)]].
  - apply NoDup_cons in Hnd as [Hn _]. apply Hn. left.
  - by rewrite Hq in Hne.
  - by apply (Hp p).
Qed.

End VariantResolver.

(** ** Strings: a stripped, non-empty chunk has a first field *)

Section Fields.

Lemma some_char_rev_onto f s acc :
  some_char f acc = true → some_char f (rev_onto s acc) = true.
Proof.
  revert acc. induction s as [|c s IH]; intros acc Hacc; simpl; [done|].
  apply IH. simpl. rewrite Hacc. apply orb_true_r.
Qed.

Lemma lstrip_by_head f s c r : lstrip_by f s = String c r → f c = false.
Proof.
  induction s as [|d s IH]; simpl; [done|].
  destruct (f d) eqn:Hd; [done|]. by intros [= <- _].
Qed.

Lemma split_ws_go_pending cur s : cur ≠ EmptyString → split_ws_go cur s ≠ [].
Proof.
  revert cur. induction s as [|c s IH]; intros cur Hcur; simpl.
  - by destruct cur.
  - destruct (is_space c); [by destruct cur|]. by apply IH.
Qed.

Lemma split_ws_go_some cur s :
  some_char (λ c, negb (is_space c)) s = true → split_ws_go cur s ≠ [].
Proof.
  revert cur. induction s as [|c s IH]; intros cur; simpl; [done|].
  destruct (is_space c); simpl.
  - intros Hs. destruct cur; [by apply IH|done].
  - intros _. by apply split_ws_go_pending.
Qed.

Lemma split_ws_strip (s : string) :
  strip s ≠ EmptyString → split_ws (strip s) ≠ [].
Proof.
  unfold strip, strip_by, split_ws, rev.
  destruct (lstrip_by is_space (rev_onto (lstrip_by is_space s) "")) as [|c r] eqn:Ht;
    [done|]. intros _.
  apply lstrip_by_head in Ht. simpl.
  apply split_ws_go_some, some_char_rev_onto. simpl. by rewrite Ht.
Qed.

End Fields.

(** ** Loops that may raise *)

Section FoldM.
Context {A B : Type}.

Lemma foldM_raises (P : exn → Prop) (f : B → A → result B) (l : list A) :
  (∀ b x e, f b x = Raise e → P e) →
  ∀ b e, foldM f l b = Raise e → P e.
Proof.
  intros Hf. induction l as [|x l IH]; intros b e; simpl; [done|].
  destruct (f b x) as [b'|e'] eqn:Hx; simpl.
  - apply IH.
  - intros [= <-]. by eapply Hf.
Qed.

Lemma foldM_invariant (I : B → Prop) (f : B → A → result B) (l : list A) :
  (∀ b x b', I b → f b x = Return b' → I b') →
  ∀ b b', I b → foldM f l b = Return b' → I b'.
Proof.
  intros Hf. induction l as [|x l IH]; intros b b' Hb; simpl.
  - by intros [= <-].
  - destruct (f b x) as [b1|e] eqn:Hx; simpl; [|done].
    apply IH. by eapply Hf.
Qed.

End FoldM.

(** ** Candidate extractor: every candidate has a first URL *)

Section Extractor.
Context `{PyLib}.

Lemma py_int_raises s e : py_int s = Raise e → e = ValueError.
Proof.
  unfold py_int. repeat case_match; simplify_eq; by intros [= <-].
Qed.

Lemma descriptor_score_raises bits e :
  descriptor_score bits = Raise e → e = OverflowError.
Proof.
  unfold descriptor_score. destruct bits as [|b0 [|b1 bits]]; [done..|].
  destruct (endswith "w" _).
  - destruct (py_int _) as [v|e'] eqn:Hi; simpl; [done|].
    apply py_int_raises in Hi as ->. done.
  - destruct (endswith "x" _); [|done].
    destruct (float_x1000 _) as [v|e'] eqn:Hf; simpl; [done|].
    apply float_x1000_raises in Hf as [-> | ->]; [done|]. by intros [= <-].
Qed.

Lemma srcset_step_raises base_url best chunk e :
  srcset_step base_url best chunk = Raise e → e = OverflowError.
Proof.
  unfold srcset_step. unfold truthy at 1.
  case_bool_decide as Hs; simpl; [|done].
  destruct (split_ws (strip chunk)) as [|raw bits] eqn:Hb.
  - by apply split_ws_strip in Hs.
  - destruct (negb _); [done|].
    destruct (descriptor_score _) as [v|e'] eqn:Hd; simpl.
    + by case_bool_decide.
    + apply descriptor_score_raises in Hd as ->. by intros [= <-].
Qed.

Lemma parse_srcset_best_raises srcset base_url e :
  parse_srcset_best srcset base_url = Raise e → e = OverflowError.
Proof.
  unfold parse_srcset_best.
  destruct (foldM _ _ _) as [b|e'] eqn:Hf; simpl; [done|]. intros [= <-].
  revert Hf. apply (foldM_raises (λ e, e = OverflowError)).
  intros ???. apply srcset_step_raises.
Qed.

Lemma img_candidate_spec page_url img :
  match img_candidate page_url img with
  | Return (Some c) => has_first c
  | Return None => True
  | Raise e => e = OverflowError
  end.
Proof.
  unfold img_candidate.
  destruct (if truthy_attr (tag_get img "srcset") then _ else _) as [urls0|e] eqn:Hs;
    simpl.
  - match goal with
    | |- match (match ?d with _ => _ end) with _ => _ end => destruct d eqn:Hd
    end; [done|]. eexists _, _. simpl. done.
  - destruct (truthy_attr (tag_get img "srcset")); [|done].
    destruct (parse_srcset_best _ _) as [b|e'] eqn:Hp; simpl in Hs; [done|].
    injection Hs as <-. by apply parse_srcset_best_raises in Hp.
Qed.

Lemma anchor_candidate_spec page_url a c :
  anchor_candidate page_url a = Some c → has_first c.
Proof.
  unfold anchor_candidate. repeat case_match; try done. intros [= <-].
  destruct (guess_fullsize_variants_spec s) as (rest & Heq & _).
  eexists _, _. simpl. exact Heq.
Qed.

Lemma first_url_loop_returns (out : list ImageCandidate) :
  Forall has_first out →
  ∀ st, Forall has_first st.1 →
        ∃ st', foldM first_url_step out st = Return st' ∧ Forall has_first st'.1.
Proof.
  induction 1 as [|c out (first & rest & Hc) Hout IH]; intros st Hst; simpl.
  - by exists st.
  - destruct (first_url_step st c) as [st1|e] eqn:Hstep;
      unfold first_url_step in Hstep; rewrite Hc in Hstep; simpl.
    + apply IH. case_bool_decide; injection Hstep as <-; [done|]. simpl.
      apply Forall_app. split; [done|].
      constructor; [|done]. by exists first, rest.
    + by case_bool_decide.
Qed.

(** [extract_image_candidates] raises nothing but the [OverflowError] of
    a descriptor, and every candidate it returns has a first URL. *)
Lemma extract_image_candidates_spec soup page_url :
  match extract_image_candidates soup page_url with
  | Return candidates => Forall has_first candidates
  | Raise e => e = OverflowError
  end.
Proof.
  unfold extract_image_candidates.
  destruct (foldM _ (find_all soup "img") []) as [out|e] eqn:Himg; simpl.
  - assert (Forall has_first out) as Hout.
    { revert Himg. apply (foldM_invariant (Forall has_first)); [|constructor].
      intros b img b' Hb. pose proof (img_candidate_spec page_url img) as Hi.
      destruct (img_candidate page_url img) as [[c|]|e]; simpl; [| |done].
      - intros [= <-]. apply Forall_app. split; [done|]. by constructor.
      - by intros [= <-]. }
    clear Himg.
    assert (∀ l out, Forall has_first out →
              Forall has_first
                (foldl (λ out a, match anchor_candidate page_url a with
                                 | Some c => out ++ [c]
                                 | None => out
                                 end) out l)) as Hanch.
    { clear. induction l as [|a l IH]; intros out Hout; simpl; [done|]. apply IH.
      destruct (anchor_candidate page_url a) as [c|] eqn:Ha; [|done].
      apply Forall_app. split; [done|]. constructor; [|done].
      by eapply anchor_candidate_spec. }
    destruct (first_url_loop_returns _ (Hanch (find_all soup "a") out Hout) ([], ∅))
      as (st' & -> & Hst'); [constructor|]. simpl. done.
  - revert Himg. apply (foldM_raises (λ e, e = OverflowError)).
    intros b img e'. pose proof (img_candidate_spec page_url img) as Hi.
    destruct (img_candidate page_url img) as [[c|]|e'']; simpl; try done.
    by intros [= <-].
Qed.

End Extractor.

(** ** Dedup and fetch resolver *)

#[local] Arguments keyword_match : simpl never.
#[local] Arguments looks_like_image_url : simpl never.

Section Resolver.
Context `{PyLib}.
Variable web : string -> option Response.

Section Equations.
Variables (candidate : ImageCandidate) (output_dir : string) (dry_run : bool)
          (skip_url_keywords : list string).
Local Abbreviation run :=
  (download_image_from web candidate output_dir dry_run skip_url_keywords).

Lemma run_nil env : run [] env = ((failed_all_variants, None, None, None), env).
Proof. done. Qed.

Lemma run_keyword url rest env :
  keyword_match url skip_url_keywords = true →
  run (url :: rest) env = ((skipped_custom_keyword, None, None, None), env).
Proof. intros Hk. simpl. by rewrite Hk. Qed.

Lemma run_profile url rest env :
  keyword_match url skip_url_keywords = false →
  skip_profile candidate = true →
  run (url :: rest) env = ((skipped_profile, None, None, None), env).
Proof. intros Hk Hp. simpl. by rewrite Hk, Hp. Qed.

Lemma run_rejected url rest env :
  keyword_match url skip_url_keywords = false →
  skip_profile candidate = false →
  accepted web url = None →
  run (url :: rest) env = run rest (get ImageGet url env).
Proof.
  intros Hk Hp Ha. unfold accepted in Ha. simpl. rewrite Hk, Hp.
  destruct (web url) as [resp|]; [|done]. cbv zeta in Ha.
  repeat match type of Ha with
         | context [if ?b then _ else _] => destruct b eqn:?; try done
         end.
Qed.

Lemma run_accepted url rest env ctype data :
  keyword_match url skip_url_keywords = false →
  skip_profile candidate = false →
  accepted web url = Some (ctype, data) →
  run (url :: rest) env =
    let digest := sha256_hexdigest data in
    let env1 := get ImageGet url env in
    if bool_decide (digest ∈ seen_hashes env)
    then ((duplicate, None, Some (byte_count data), Some digest), env1)
    else if dry_run
    then ((would_download, None, Some (byte_count data), Some digest),
          mkEnv ({[digest]} ∪ seen_hashes env) (files env) (requests env1))
    else ((downloaded, Some (saved_path output_dir url ctype digest),
           Some (byte_count data), Some digest),
          mkEnv ({[digest]} ∪ seen_hashes env)
                (files env ++ [(saved_path output_dir url ctype digest, data)])
                (requests env1)).
Proof.
  intros Hk Hp Ha. unfold accepted in Ha. simpl. rewrite Hk, Hp.
  destruct (web url) as [resp|]; [|done]. cbv zeta in Ha.
  repeat match type of Ha with
         | context [if ?b then _ else _] => destruct b eqn:?; try done
         end.
  injection Ha as <- <-. done.
Qed.


(** The GETs a run issues are a prefix of the variants left to try,
    none for a profile-flagged candidate; [seen_hashes] gains the digest
    exactly on [downloaded] and [would_download], and a file is written
    exactly on [downloaded]. *)
Lemma run_effect todo env :
  ∃ tried,
    requests ((run todo env).2) = requests env ++ ((λ u, (ImageGet, u)) <$> tried)
    ∧ tried `prefix_of` todo
    ∧ (skip_profile candidate = true → tried = [])
    ∧ match (run todo env).1 with
      | (downloaded, Some path, Some n, Some digest) =>
          dry_run = false ∧ (digest ∉ seen_hashes env)
          ∧ seen_hashes ((run todo env).2) = {[digest]} ∪ seen_hashes env
          ∧ ∃ data, files ((run todo env).2) = files env ++ [(path, data)]
                    ∧ digest = sha256_hexdigest data ∧ n = byte_count data
      | (would_download, None, Some n, Some digest) =>
          dry_run = true ∧ (digest ∉ seen_hashes env)
          ∧ seen_hashes ((run todo env).2) = {[digest]} ∪ seen_hashes env
          ∧ files ((run todo env).2) = files env
      | (duplicate, None, Some n, Some digest) =>
          digest ∈ seen_hashes env
          ∧ seen_hashes ((run todo env).2) = seen_hashes env
          ∧ files ((run todo env).2) = files env
      | (skipped_profile, None, None, None)
      | (skipped_custom_keyword, None, None, None)
      | (failed_all_variants, None, None, None) =>
          seen_hashes ((run todo env).2) = seen_hashes env
          ∧ files ((run todo env).2) = files env
      | _ => False
      end.
Proof.
  revert env. induction todo as [|url rest IH]; intros env.
  - exists []. rewrite run_nil. simpl. by rewrite app_nil_r.
  - destruct (keyword_match url skip_url_keywords) eqn:Hk.
    { exists []. rewrite run_keyword by done. simpl. rewrite app_nil_r.
      split_and!; try done. apply prefix_nil. }
    destruct (skip_profile candidate) eqn:Hp.
    { exists []. rewrite run_profile by done. simpl. rewrite app_nil_r.
      split_and!; try done. apply prefix_nil. }
    destruct (accepted web url) as [[ctype data]|] eqn:Ha.
    + exists [url]. rewrite (run_accepted _ _ _ _ _ Hk Hp Ha). cbv zeta.
      case_bool_decide as Hd; [|destruct dry_run]; simpl;
        split_and!; try done; try (by apply prefix_cons, prefix_nil).
      by exists data.
    + rewrite (run_rejected _ _ _ Hk Hp Ha).
      destruct (IH (get ImageGet url env)) as (tried & Hreq & Hpre & _ & Hst).
      exists (url :: tried). split_and!; try done.
      * rewrite Hreq. simpl. by rewrite <- app_assoc.
      * by apply prefix_cons.
Qed.

End Equations.

End Resolver.



(** ** Crawl traversal *)

Lemma gets_app kind l1 l2 : gets kind (l1 ++ l2) = gets kind l1 ++ gets kind l2.
Proof. unfold gets. by rewrite filter_app, fmap_app. Qed.

Lemma gets_other kind kind' (l : list string) :
  kind ≠ kind' → gets kind ((λ u, (kind', u)) <$> l) = [].
Proof.
  intros Hk. unfold gets. induction l as [|u l IH]; [done|].
  rewrite fmap_cons, filter_cons_False; [done|]. simpl. congruence.
Qed.

Section Traversal.
Context `{PyLib}.
Variable web : string -> option Response.
Variable args : Args.
Variable allowed_hosts : gset string.
Variable skip_keywords : list string.

Local Abbreviation loop := (candidates_loop web args skip_keywords).
Local Abbreviation step := (crawl_step web args allowed_hosts skip_keywords).
Local Abbreviation inv := (inv_of args allowed_hosts).
Local Abbreviation holds := (crawl_inv args allowed_hosts).

(** A candidate whose first URL is in [seen_image_urls] is passed over:
    the state after it is the state before it. *)
Lemma candidates_loop_seen page_url dir candidate rest st first more :
  urls candidate = first :: more →
  first ∈ seen_image_urls st →
  loop page_url dir (candidate :: rest) st = loop page_url dir rest st.
Proof. intros Hu Hs. simpl. by rewrite Hu, bool_decide_eq_true_2. Qed.

(** What the loop over the candidates of a page does to the state. *)
Lemma candidates_loop_effect page_url dir candidates :
  ∀ st,
    let r := loop page_url dir candidates st in
    queue r.1 = queue st
    ∧ visited_pages r.1 = visited_pages st
    ∧ total_pages r.1 = total_pages st
    ∧ (∃ imgs, requests (env r.1)
               = requests (env st) ++ ((λ u, (ImageGet, u)) <$> imgs))
    ∧ (∃ rows, manifest r.1 = manifest st ++ rows
               ∧ NoDup (row_image_url <$> rows)
               ∧ (∀ u, u ∈ row_image_url <$> rows → u ∉ seen_image_urls st)
               ∧ seen_image_urls r.1
                 = list_to_set (row_image_url <$> rows) ∪ seen_image_urls st)
    ∧ (Forall has_first candidates → r.2 = None).
Proof.
  induction candidates as [|c cs IH]; intros st; simpl.
  - split_and!; try done.
    + exists []. by rewrite app_nil_r.
    + exists []. rewrite app_nil_r. split_and!; [done|constructor| |].
      * by intros u ?%elem_of_nil.
      * simpl. by rewrite (left_id_L ∅ (∪)).
  - destruct (urls c) as [|first more] eqn:Hu.
    { simpl. split_and!; try done.
      - exists []. by rewrite app_nil_r.
      - exists []. rewrite app_nil_r. split_and!; [done|constructor| |].
        + by intros u ?%elem_of_nil.
        + simpl. by rewrite (left_id_L ∅ (∪)).
      - intros [(f & r & Hc) _]%Forall_cons. congruence. }
    case_bool_decide as Hseen.
    { destruct (IH st) as (? & ? & ? & ? & ? & Hex). split_and!; try done.
      intros [_ ?]%Forall_cons. by apply Hex. }
    pose proof (run_effect web c dir (dry_run args) skip_keywords (urls c) (env st))
      as (tried & Hreq & _).
    unfold download_image.
    destruct (download_image_from _ _ _ _ _ _ _) as [[[[status path] n] digest] env'].
    simpl in Hreq.
    match goal with |- context [loop page_url dir cs ?s] => set (st1 := s) end.
    destruct (IH st1) as (Hq & Hv & Ht & (imgs & Hi) & (rows & Hm & Hnd & Hfresh & Hs) & Hex).
    subst st1. simpl in *. split_and!; try done.
    + exists (tried ++ imgs). by rewrite Hi, Hreq, fmap_app, app_assoc.
    + eexists (_ :: rows). split_and!.
      * by rewrite Hm, <- app_assoc.
      * simpl. constructor; [|done]. intros Hin. apply Hfresh in Hin.
        apply Hin. apply elem_of_union_l, elem_of_singleton. done.
      * simpl. intros u [->|Hin]%elem_of_cons; [done|].
        apply Hfresh in Hin. intros ?. apply Hin. by apply elem_of_union_r.
      * rewrite Hs. simpl.
        by rewrite (assoc_L (∪)), (comm_L (∪) (list_to_set _) {[first]}).
    + intros [_ ?]%Forall_cons. by apply Hex.
Qed.

Lemma enqueue_visited visited queue link :
  link ∈ visited → enqueue args allowed_hosts visited queue link = queue.
Proof. intros Hl. unfold enqueue. by rewrite bool_decide_eq_true_2. Qed.

Lemma enqueue_loop_length visited links :
  ∀ queue,
    (length queue
     ≤ length (foldl (enqueue args allowed_hosts visited) queue links))%nat.
Proof.
  induction links as [|l links IH]; intros queue; simpl; [done|].
  etrans; [|apply IH]. unfold enqueue. repeat case_match; try done.
  rewrite length_app. simpl. lia.
Qed.

(** A page that is dequeued when already visited is dropped without a GET. *)
Lemma crawl_step_visited st page_url rest :
  queue st = page_url :: rest →
  total_pages st < max_pages args →
  page_url ∈ visited_pages st →
  step st = Continue (mkCrawl rest (visited_pages st) (seen_image_urls st) (env st)
                              (total_pages st) (tally st) (manifest st)).
Proof.
  intros Hq Ht Hv. unfold crawl_step. rewrite Hq.
  by rewrite (bool_decide_eq_true_2 _ Ht), (bool_decide_eq_true_2 _ Hv).
Qed.

(** A page outside the allowlist is marked visited and dropped without a
    GET when cross-domain crawling is off. *)
Lemma crawl_step_foreign st page_url rest :
  queue st = page_url :: rest →
  total_pages st < max_pages args →
  page_url ∉ visited_pages st →
  allow_cross_domain args = false →
  host_of page_url ∉ allowed_hosts →
  step st = Continue (mkCrawl rest ({[page_url]} ∪ visited_pages st)
                              (seen_image_urls st) (env st)
                              (total_pages st) (tally st) (manifest st)).
Proof.
  intros Hq Ht Hv Hc Hh. unfold crawl_step. rewrite Hq, Hc.
  rewrite (bool_decide_eq_true_2 _ Ht), (bool_decide_eq_false_2 _ Hv).
  by rewrite (bool_decide_eq_true_2 _ Hh).
Qed.

Lemma inv_of_visit visited seen reqs rows page_url :
  inv visited seen reqs rows → inv ({[page_url]} ∪ visited) seen reqs rows.
Proof.
  intros (? & Hv & ? & ? & ?). split_and!; try done.
  intros u Hu. apply elem_of_union_r. by apply Hv.
Qed.

Lemma inv_of_page_get visited seen reqs rows page_url :
  inv visited seen reqs rows →
  page_url ∉ visited →
  (allow_cross_domain args = false → host_of page_url ∈ allowed_hosts) →
  inv ({[page_url]} ∪ visited) seen (reqs ++ [(PageGet, page_url)]) rows.
Proof.
  intros (Hnd & Hv & Hh & ? & ?) Hp Hhost.
  assert (gets PageGet (reqs ++ [(PageGet, page_url)])
          = gets PageGet reqs ++ [page_url]) as Hg.
  { rewrite gets_app. f_equal. }
  unfold inv_of. rewrite Hg.
  split_and!; try done.
  - apply NoDup_app. split_and!; [done| |apply NoDup_singleton].
    intros u Hu ->%list_elem_of_singleton. apply Hp. by apply Hv.
  - intros u [Hu| ->%list_elem_of_singleton]%elem_of_app.
    + apply elem_of_union_r. by apply Hv.
    + apply elem_of_union_l. by apply elem_of_singleton.
  - intros Hc u [Hu| ->%list_elem_of_singleton]%elem_of_app; [by apply Hh|].
    by apply Hhost.
Qed.

Lemma crawl_inv_candidates page_url dir candidates st :
  holds st → holds (loop page_url dir candidates st).1.
Proof.
  intros (Hnd & Hv & Hh & Hm & Hs).
  destruct (candidates_loop_effect page_url dir candidates st)
    as (_ & Hv' & _ & (imgs & Hi) & (rows & Hrows & Hnd' & Hfresh & Hs') & _).
  unfold crawl_inv, inv_of. rewrite Hv', Hi, Hrows, Hs', gets_app.
  rewrite (gets_other PageGet ImageGet) by done. rewrite app_nil_r.
  split_and!; try done.
  - rewrite fmap_app. apply NoDup_app. split_and!; [done| |done].
    intros u Hu Hu'. apply (Hfresh u Hu'). rewrite Hs. by apply elem_of_list_to_set.
  - rewrite fmap_app, list_to_set_app_L, Hs. by rewrite (comm_L (∪)).
Qed.

Lemma crawl_step_inv st : holds st → holds (step_state (step st)).
Proof.
  intros Hinv. unfold crawl_step.
  destruct (queue st) as [|page_url rest]; [done|].
  case_bool_decide as Ht; simpl; [|done].
  case_bool_decide as Hv; simpl; [done|].
  destruct (negb (allow_cross_domain args)
            && bool_decide (host_of page_url ∉ allowed_hosts)) eqn:Hhost; simpl.
  { by apply inv_of_visit. }
  assert (inv ({[page_url]} ∪ visited_pages st) (seen_image_urls st)
                 (requests (env st) ++ [(PageGet, page_url)]) (manifest st)) as Hinv1.
  { apply inv_of_page_get; [done|done|]. intros Hc. rewrite Hc in Hhost. simpl in Hhost.
    apply bool_decide_eq_false in Hhost. by apply dec_stable in Hhost. }
  destruct (web page_url) as [resp|]; simpl; [|done].
  destruct (bool_decide (status_code resp >= 400) || negb (is_html_response resp));
    simpl; [done|].
  destruct (extract_image_candidates _ _) as [candidates|e]; simpl; [|done].
  match goal with |- context [loop ?p ?d ?c ?s] =>
    pose proof (crawl_inv_candidates p d c s Hinv1) as Hinv2;
    destruct (loop p d c s) as [st2 [e|]] end; simpl in *; [done|].
  by destruct (discover_links _ _ _).
Qed.

Lemma crawl_loop_inv fuel :
  ∀ st, holds st →
        holds (state_of (crawl_loop web args allowed_hosts skip_keywords fuel st)).
Proof.
  induction fuel as [|fuel IH]; intros st Hinv; simpl; [done|].
  pose proof (crawl_step_inv st Hinv) as Hstep.
  destruct (step st); simpl in *; [by apply IH|done|done].
Qed.

(** *** Termination *)

(** Every iteration either shortens the queue or counts one more page
    towards [max_pages]. *)
Lemma crawl_step_progress st st' :
  step st = Continue st' →
  (total_pages st' = total_pages st ∧ (length (queue st') < length (queue st))%nat)
  ∨ (total_pages st' = total_pages st + 1 ∧ total_pages st < max_pages args).
Proof.
  unfold crawl_step.
  destruct (queue st) as [|page_url rest] eqn:Hq; [done|].
  case_bool_decide as Ht; simpl; [|done].
  case_bool_decide as Hv; simpl; [intros [= <-]; left; simpl; split; [done|lia]|].
  destruct (negb (allow_cross_domain args) && _); simpl;
    [intros [= <-]; left; simpl; split; [done|lia]|].
  destruct (web page_url) as [resp|]; simpl;
    [|intros [= <-]; left; simpl; split; [done|lia]].
  destruct (bool_decide (status_code resp >= 400) || negb (is_html_response resp));
    simpl; [intros [= <-]; left; simpl; split; [done|lia]|].
  destruct (extract_image_candidates _ _) as [candidates|e]; simpl; [|done].
  match goal with |- context [loop ?p ?d ?c ?s] =>
    destruct (candidates_loop_effect p d c s) as (_ & _ & Htot & _);
    destruct (loop p d c s) as [st2 [e|]] end; simpl in *; [done|].
  destruct (discover_links _ _ _). intros [= <-]. right. simpl. by rewrite Htot.
Qed.

Lemma crawl_loop_halts_by_queue (n : nat) :
  (∀ st, (Z.to_nat (max_pages args - total_pages st) < n)%nat →
         ∃ fuel, halted (crawl_loop web args allowed_hosts skip_keywords fuel st)) →
  ∀ (m : nat) st,
    (Z.to_nat (max_pages args - total_pages st) ≤ n)%nat →
    (length (queue st) ≤ m)%nat →
    ∃ fuel, halted (crawl_loop web args allowed_hosts skip_keywords fuel st).
Proof.
  intros Hless. induction m as [|m IH]; intros st Hn Hm.
  - exists 1%nat. simpl. unfold crawl_step.
    destruct (queue st); [done|]. simpl in Hm. lia.
  - destruct (step st) as [st'|st'|e st'] eqn:Hstep.
    + destruct (crawl_step_progress _ _ Hstep) as [[Ht Hl]|[Ht Hlt]].
      * destruct (IH st') as [fuel Hf]; [by rewrite Ht|lia|].
        exists (S fuel). simpl. by rewrite Hstep.
      * destruct (Hless st') as [fuel Hf]; [rewrite Ht; lia|].
        exists (S fuel). simpl. by rewrite Hstep.
    + exists 1%nat. simpl. by rewrite Hstep.
    + exists 1%nat. simpl. by rewrite Hstep.
Qed.

(** The loop stops from every state: with enough iterations it has
    left the [while], normally or by an exception. *)
Lemma crawl_loop_halts st :
  ∃ fuel, halted (crawl_loop web args allowed_hosts skip_keywords fuel st).
Proof.
  assert (∀ n st, (Z.to_nat (max_pages args - total_pages st) ≤ n)%nat →
            ∃ fuel, halted (crawl_loop web args allowed_hosts skip_keywords fuel st))
    as Hall.
  { induction n as [|n IH]; intros st' Hn.
    - apply (crawl_loop_halts_by_queue 0 (λ st Hlt, False_rect _ (Nat.nlt_0_r _ Hlt))
               (length (queue st'))); [done|lia].
    - apply (crawl_loop_halts_by_queue (S n)) with (m := length (queue st'));
        [|done|lia].
      intros st'' Hlt. apply IH. lia. }
  by apply (Hall (Z.to_nat (max_pages args - total_pages st))).
Qed.



End Traversal.

(** ** The crawl as a whole *)

Section Crawl.
Context `{PyLib}.
Variable web : string -> option Response.
Variable args : Args.

Lemma crawl_and_download_inv fuel :
  crawl_inv args (allowed_hosts_of args) (state_of (crawl_and_download web args fuel)).
Proof.
  assert (∀ q, crawl_inv args (allowed_hosts_of args) (initial q)) as Hinit.
  { intros q. unfold crawl_inv, inv_of. simpl.
    split_and!; [apply NoDup_nil_2 | by intros ? ?%elem_of_nil
                | by intros ? ? ?%elem_of_nil | apply NoDup_nil_2 | done]. }
  unfold crawl_and_download. destruct (valid_start_urls args); [apply Hinit|].
  apply crawl_loop_inv, Hinit.
Qed.

Lemma crawl_and_download_halts : ∃ fuel, halted (crawl_and_download web args fuel).
Proof.
  unfold crawl_and_download. destruct (valid_start_urls args); [by exists 0%nat|].
  apply crawl_loop_halts.
Qed.

End Crawl.

(** C1. At ["http://h.com/thumb/a-small.jpg"] the first rewrite (dropping
    the [/thumb/] segment) and the fourth (dropping [-small]) both change
    the path. The variants come out in the order in which the process
    iterates the set of rewritten paths: in rule order when that is the
    insertion order, with the fourth rule's variant ahead of the first
    rule's when it is the reverse. *)
Theorem guess_fullsize_variants_follows_set_order :
  let url := "http://h.com/thumb/a-small.jpg" in
  path_rewrites "/thumb/a-small.jpg"
  = ["/a-small.jpg"; "/thumb/a-small.jpg"; "/thumb/a-small.jpg"; "/thumb/a.jpg";
     "/thumb/a-small.jpg"]
  ∧ guess_fullsize_variants (H:=Reference.lib []) url
    = [url; "http://h.com/a-small.jpg"; "http://h.com/thumb/a.jpg"]
  ∧ guess_fullsize_variants (H:=Reference.lib' []) url
    = [url; "http://h.com/thumb/a.jpg"; "http://h.com/a-small.jpg"].
Proof. by vm_compute. Qed.

(** C4 as stated fails: with cross-domain mode off and the allowlist
    [{blog.example}], crawling a blog page that shows an image hosted on
    [cdn.example] issues a GET to [cdn.example]. *)
Lemma image_get_leaves_allowlist :
  let args := Examples.args_for "http://blog.example/" in
  let lib := Reference.lib Examples.blog_docs in
  allow_cross_domain args = false
  ∧ elements (allowed_hosts_of (H:=lib) args) = ["blog.example"]
  ∧ match crawl_and_download (H:=lib) Examples.blog_web args 2 with
    | Exit 0 st => requests (env st) = [(PageGet, "http://blog.example/");
                                        (ImageGet, "http://cdn.example/x.jpg")]
    | _ => False
    end
  ∧ host_of (H:=lib) "http://cdn.example/x.jpg" = "cdn.example".
Proof. cbv zeta. split_and!; vm_compute; reflexivity. Qed.

(** C4, amended. With cross-domain mode off, every page GET of the crawl
    goes to a host of the allowlist derived from the start URLs, at any
    point of the crawl; a dequeued page whose host is outside the allowlist
    is marked visited and dropped with no GET. (The GETs of
    [download_image] for image variants are not restricted by host.) *)
Theorem page_gets_stay_in_allowlist `{PyLib} (web : string → option Response)
    (args : Args) :
  allow_cross_domain args = false →
  (∀ fuel,
     Forall (λ url, host_of url ∈ allowed_hosts_of args)
       (gets PageGet (requests (env (state_of (crawl_and_download web args fuel))))))
  ∧ (∀ skip_keywords st page_url rest,
       queue st = page_url :: rest →
       total_pages st < max_pages args →
       page_url ∉ visited_pages st →
       host_of page_url ∉ allowed_hosts_of args →
       crawl_step web args (allowed_hosts_of args) skip_keywords st
       = Continue (mkCrawl rest ({[page_url]} ∪ visited_pages st) (seen_image_urls st)
                           (env st) (total_pages st) (tally st) (manifest st))).
Proof.
  intros Hc. split.
  - intros fuel. apply Forall_forall. intros url Hu.
    destruct (crawl_and_download_inv web args fuel) as (_ & _ & Hh & _). by apply Hh.
  - intros kws st page_url rest Hq Ht Hv Hh. by apply crawl_step_foreign.
Qed.

Lemma page_gets_stay_in_allowlist_witness :
  let args := Examples.args_for "http://blog.example/" in
  let lib := Reference.lib Examples.blog_docs in
  (∀ fuel,
     Forall (λ url, host_of (H:=lib) url ∈ allowed_hosts_of (H:=lib) args)
       (gets PageGet
          (requests (env (state_of
             (crawl_and_download (H:=lib) Examples.blog_web args fuel))))))
  ∧ (∀ skip_keywords st page_url rest,
       queue st = page_url :: rest →
       total_pages st < max_pages args →
       page_url ∉ visited_pages st →
       host_of (H:=lib) page_url ∉ allowed_hosts_of (H:=lib) args →
       crawl_step (H:=lib) Examples.blog_web args (allowed_hosts_of (H:=lib) args)
         skip_keywords st
       = Continue (mkCrawl rest ({[page_url]} ∪ visited_pages st) (seen_image_urls st)
                           (env st) (total_pages st) (tally st) (manifest st))).
Proof.
  exact (page_gets_stay_in_allowlist (H:=Reference.lib Examples.blog_docs)
           Examples.blog_web (Examples.args_for "http://blog.example/") eq_refl).
Defined.

(** C5. No page URL is fetched twice: at any point of the crawl the page
    GETs are pairwise distinct and their URLs are in [visited_pages]; a
    discovered link that is already visited is not enqueued, and a dequeued
    page that is already visited is dropped with no GET. The crawl always
    leaves its loop, so a page linking to itself cannot keep it running. *)
Theorem page_fetched_once_and_crawl_halts `{PyLib} (web : string → option Response)
    (args : Args) :
  (∀ fuel,
     let st := state_of (crawl_and_download web args fuel) in
     NoDup (gets PageGet (requests (env st)))
     ∧ Forall (λ url, url ∈ visited_pages st) (gets PageGet (requests (env st))))
  ∧ (∃ fuel, halted (crawl_and_download web args fuel))
  ∧ (∀ allowed_hosts visited queue link,
       link ∈ visited → enqueue args allowed_hosts visited queue link = queue)
  ∧ (∀ allowed_hosts skip_keywords st page_url rest,
       queue st = page_url :: rest →
       total_pages st < max_pages args →
       page_url ∈ visited_pages st →
       crawl_step web args allowed_hosts skip_keywords st
       = Continue (mkCrawl rest (visited_pages st) (seen_image_urls st) (env st)
                           (total_pages st) (tally st) (manifest st))).
Proof.
  split_and!.
  - intros fuel st. subst st.
    destruct (crawl_and_download_inv web args fuel) as (Hnd & Hv & _).
    split; [done|]. by apply Forall_forall.
  - apply crawl_and_download_halts.
  - intros. by apply enqueue_visited.
  - intros hosts kws st page_url rest Hq Ht Hv.
    by apply crawl_step_visited with (page_url := page_url).
Qed.

(** The crawl of a page whose only link is a [rel=next] link to itself:
    one GET, then the loop ends with exit code 0. *)
Example self_link_crawl_halts :
  match crawl_and_download (H:=Reference.lib Examples.loop_docs) Examples.loop_web
          (Examples.args_for "http://loop.example/") 2 with
  | Exit 0 st => requests (env st) = [(PageGet, "http://loop.example/")] ∧ queue st = []
  | _ => False
  end.
Proof. vm_compute. split; reflexivity. Qed.

(** C9. A candidate whose first URL is already in [seen_image_urls] is
    passed over: [download_image] is not called, no row is appended, and the
    state (seen sets, files, GETs) is what it was. A candidate whose first
    URL is new gets one call of [download_image] and one row, and its first
    URL joins [seen_image_urls]. So, at any point of the crawl, the rows of
    the manifest have pairwise distinct image URLs, and [seen_image_urls] is
    the set of those URLs. *)
Theorem first_url_resolved_once `{PyLib} (web : string → option Response)
    (args : Args) :
  (∀ skip_keywords page_url dir candidate rest st first more,
     urls candidate = first :: more →
     first ∈ seen_image_urls st →
     candidates_loop web args skip_keywords page_url dir (candidate :: rest) st
     = candidates_loop web args skip_keywords page_url dir rest st)
  ∧ (∀ skip_keywords page_url dir candidate rest st first more,
       urls candidate = first :: more →
       first ∉ seen_image_urls st →
       let r := download_image web candidate dir (env st) (dry_run args) skip_keywords in
       let row := mkRow page_url first (status_of r.1) (default "" r.1.1.1.2)
                        r.1.1.2 (default "" r.1.2) (length (urls candidate)) in
       candidates_loop web args skip_keywords page_url dir (candidate :: rest) st
       = candidates_loop web args skip_keywords page_url dir rest
           (mkCrawl (queue st) (visited_pages st) ({[first]} ∪ seen_image_urls st) r.2
                    (total_pages st) (count (status_of r.1) (tally st))
                    (manifest st ++ [row])))
  ∧ (∀ fuel,
       let st := state_of (crawl_and_download web args fuel) in
       NoDup (row_image_url <$> manifest st)
       ∧ seen_image_urls st = list_to_set (row_image_url <$> manifest st)).
Proof.
  split_and!.
  - intros kws page_url dir candidate rest st first more Hu Hs.
    by apply candidates_loop_seen with (first := first) (more := more).
  - intros kws page_url dir candidate rest st first more Hu Hs r row. subst r row.
    simpl. rewrite Hu, (bool_decide_eq_false_2 _ Hs). rewrite <- Hu.
    by destruct (download_image _ _ _ _ _ _) as [[[[status path] n] digest] env'].
  - intros fuel st. subst st.
    by destruct (crawl_and_download_inv web args fuel) as (_ & _ & _ & ? & ?).
Qed.


(** C8. Two runs over the same pages with the same configuration, in
    processes whose sets iterate in different orders: the page shows a
    thumbnail whose URL is gone and whose two full-size guesses both exist
    with different bytes. One run saves the first guess, the other the
    second; the manifests differ in saved path and digest. *)
Theorem manifest_depends_on_set_order :
  let args := Examples.args_for "http://h.example/" in
  let run lib := crawl_and_download (H:=lib) Examples.thumb_web args 2 in
  match run (Reference.lib Examples.thumb_docs), run (Reference.lib' Examples.thumb_docs) with
  | Exit 0 st1, Exit 0 st2 =>
      (row_image_url <$> manifest st1) = ["http://h.example/thumb/a-small.jpg"]
      ∧ (row_image_url <$> manifest st2) = ["http://h.example/thumb/a-small.jpg"]
      ∧ (row_status <$> manifest st1) = [downloaded]
      ∧ (row_status <$> manifest st2) = [downloaded]
      ∧ (row_saved_path <$> manifest st1)
        = ["/out/h.example/images/a-small_sha256-of-AA.jpg"]
      ∧ (row_saved_path <$> manifest st2)
        = ["/out/h.example/images/a_sha256-of-BB.jpg"]
      ∧ (row_sha256 <$> manifest st1) = [Reference.ref_sha256 (Examples.filler 600 "A")]
      ∧ (row_sha256 <$> manifest st2) = [Reference.ref_sha256 (Examples.filler 600 "B")]
  | _, _ => False
  end.
Proof. vm_compute. split_and!; reflexivity. Qed.

(** The end-to-end scenario of the thumbnail that is gone while its
    full-size variant exists: [downloaded], with two variants. *)
Example cat_thumbnail_downloaded :
  (λ r, (row_status r, row_image_url r, row_saved_path r, row_bytes r,
         row_variant_count r))
    <$> manifest (state_of (crawl_and_download (H:=Reference.lib Examples.cat_docs)
                              Examples.cat_web (Examples.args_for "http://h.example/") 2))
  = [(downloaded, "http://h.example/img/cat-thumb.jpg",
      "/out/h.example/images/cat_sha256-of-cc.jpg", Some 2000, 2%nat)].
Proof. by vm_compute. Qed.

(** ** The best srcset entry *)

Section StringFacts.

Lemma rev_onto_app a b acc : rev_onto (a +:+ b) acc = rev_onto b (rev_onto a acc).
Proof. revert acc. induction a as [|c a IH]; intros acc; simpl; [done|apply IH]. Qed.

Lemma rev_onto_rev_onto s a b : rev_onto (rev_onto s a) b = rev_onto a (s +:+ b).
Proof.
  revert a b. induction s as [|c s IH]; intros a b; simpl; [done|].
  by rewrite IH.
Qed.

Lemma append_nil_r s : s +:+ EmptyString = s.
Proof.
  induction s as [|c s IH]; [done|].
  change (String c (s +:+ EmptyString) = String c s). by rewrite IH.
Qed.

Lemma rev_rev s : rev (rev s) = s.
Proof. unfold rev. by rewrite rev_onto_rev_onto, append_nil_r. Qed.




End StringFacts.

Section BestStep.


End BestStep.

Section Srcset.
Context `{PyLib}.
#[local] Arguments descriptor_score : simpl never.






End Srcset.


(** The examples of the specification: [2x] beats [1x], and [1x] (1000)
    beats [400w]; an entry scoring below 0 is never chosen; an infinite
    [x] descriptor raises. *)
Example parse_srcset_best_examples :
  let best := parse_srcset_best (H:=Reference.lib []) in
  best "a.jpg 1x, b.jpg 2x" "http://h.example/" = Return (Some "http://h.example/b.jpg")
  ∧ best "a.jpg 100w, b.jpg 400w, c.jpg 1x" "http://h.example/"
    = Return (Some "http://h.example/c.jpg")
  ∧ best "a.jpg 300w, b.jpg 300w" "http://h.example/"
    = Return (Some "http://h.example/a.jpg")
  ∧ best "a.jpg -5w" "http://h.example/" = Return None
  ∧ best "a.jpg infx" "http://h.example/" = Raise OverflowError.
Proof. by vm_compute. Qed.

(** ** Pagination links *)

Section JoinedAttributes.

Lemma app_cons c x y : String c x +:+ y = String c (x +:+ y).
Proof. done. Qed.

Lemma lower_ascii_idemp c : lower_ascii (lower_ascii c) = lower_ascii c.
Proof. by destruct c as [[] [] [] [] [] [] [] []]. Qed.

Lemma lower_lower s : lower (lower s) = lower s.
Proof.
  induction s as [|c s IH]; simpl; [done|]. by rewrite lower_ascii_idemp, IH.
Qed.

Lemma lower_app a b : lower (a +:+ b) = lower a +:+ lower b.
Proof.
  induction a as [|c a IH]; [done|].
  rewrite app_cons. simpl. by rewrite IH.
Qed.

Lemma keyword_match_lower value keywords :
  keyword_match (lower value) keywords = keyword_match value keywords.
Proof. unfold keyword_match. by rewrite lower_lower. Qed.

(** A keyword without a space starts at the head of [x y], joined by a
    space, only if it starts [x]. *)
Lemma startswith_app_space k :
  no_space k = true →
  ∀ x y, startswith k (x +:+ String " "%char y) = startswith k x.
Proof.
  unfold startswith.
  induction k as [|d k IH]; intros Hk x y; [by destruct x|].
  simpl in Hk. apply andb_true_iff in Hk as [Hd Hk].
  destruct x as [|c x].
  - change (EmptyString +:+ String " "%char y) with (String " "%char y). simpl.
    destruct (ascii_dec d " "%char) as [->|]; [by vm_compute in Hd|done].
  - rewrite app_cons. simpl. destruct (ascii_dec d c); [by apply IH|done].
Qed.

Lemma str_in_app_space k a b :
  no_space k = true →
  str_in k (a +:+ String " "%char b) = str_in k a || str_in k b.
Proof.
  intros Hk. induction a as [|c a IH].
  - change (str_in k (String " "%char b) = str_in k EmptyString || str_in k b).
    cbn [str_in]. f_equal. unfold startswith. destruct k as [|d k]; [done|].
    simpl in *. apply andb_true_iff in Hk as [Hd _].
    destruct (ascii_dec d " "%char) as [->|]; [by vm_compute in Hd|done].
  - pose proof (startswith_app_space k Hk (String c a) b) as Hs.
    rewrite app_cons in *. cbn [str_in]. by rewrite IH, Hs, orb_assoc.
Qed.

Lemma existsb_orb {A} (f g : A → bool) l :
  existsb (λ x, f x || g x) l = existsb f l || existsb g l.
Proof.
  induction l as [|x l IH]; simpl; [done|]. rewrite IH.
  destruct (f x), (g x), (existsb f l); done.
Qed.

Lemma keyword_match_app_space a b keywords :
  forallb no_space keywords = true →
  keyword_match (a +:+ " " +:+ b) keywords
  = keyword_match a keywords || keyword_match b keywords.
Proof.
  intros Hk. unfold keyword_match. rewrite <- existsb_orb.
  induction keywords as [|k ks IH]; simpl; [done|].
  simpl in Hk. apply andb_true_iff in Hk as [Hk Hks].
  rewrite IH by done. f_equal.
  rewrite lower_app. change (lower (" " +:+ b)) with (String " "%char (lower b)).
  by apply str_in_app_space.
Qed.

(** Searching the four joined attribute strings is searching each. *)
Lemma keyword_match_joined a b c d keywords :
  forallb no_space keywords = true →
  keyword_match (join " " [a; b; c; d]) keywords
  = existsb (λ part, keyword_match part keywords) [a; b; c; d].
Proof.
  intros Hk. simpl. rewrite !keyword_match_app_space by done.
  by rewrite orb_false_r.
Qed.

End JoinedAttributes.

(** C7 as stated fails in both directions: an anchor whose only mark is
    a title of [more] is a next link as stated but not for [is_next_link],
    and one whose only mark is a title of [newer] is a next link for
    [is_next_link] but not as stated. *)
Lemma is_next_link_differs_from_statement :
  let more := Examples.anchor {[ "href" := AStr "/archive"; "title" := AStr "more" ]} "" in
  let newer := Examples.anchor {[ "href" := AStr "/archive"; "title" := AStr "newer" ]} "" in
  let href := "http://h.example/archive" in
  is_next_link more href = false
  ∧ is_next_link_as_stated more href = true
  ∧ is_next_link newer href = true
  ∧ is_next_link_as_stated newer href = false.
Proof. by vm_compute. Qed.

(** C7, amended. An anchor is a next link exactly when its [rel] contains
    [next]; or its visible text contains a marker of [NEXT_TEXT_MARKERS]; or
    one of its [class], [id], [aria-label], [title] attributes contains
    [next], [pagination], [pager], [older] or [newer]; or its URL has a
    numeric [page=] or [p=] parameter. *)
Theorem is_next_link_iff (tag : Tag) (href : string) :
  is_next_link tag href = true ↔
    str_in "next" (rel_text tag) = true
    ∨ keyword_match (tag_text tag) NEXT_TEXT_MARKERS = true
    ∨ (∃ attr, attr ∈ ["class"; "id"; "aria-label"; "title"]
               ∧ keyword_match (attr_str tag attr)
                   ["next"; "pagination"; "pager"; "older"; "newer"] = true)
    ∨ search_page_param (lower href) = true.
Proof.
  unfold is_next_link.
  rewrite !keyword_match_lower, keyword_match_joined by done.
  destruct (str_in "next" (rel_text tag)); [by split; [left|]|].
  destruct (keyword_match (tag_text tag) NEXT_TEXT_MARKERS);
    [by split; [right; left|]|].
  destruct (existsb _ _) eqn:Hattrs.
  - split; [intros _|done]. right. right. left.
    apply existsb_exists in Hattrs as (attr0 & Hin & Hm).
    simpl in Hin.
    destruct Hin as [<-|[<-|[<-|[<-|[]]]]];
      [exists "class"|exists "id"|exists "aria-label"|exists "title"];
      (split; [set_solver|done]).
  - destruct (search_page_param (lower href));
      [by split; [right; right; right|]|].
    split; [done|]. intros [?|[?|[(attr & Hin & Hm)|?]]]; try done.
    assert (existsb (λ part, keyword_match part
                       ["next"; "pagination"; "pager"; "older"; "newer"])
              [attr_str tag "class"; attr_str tag "id"; attr_str tag "aria-label";
               attr_str tag "title"] = true) as Hc; [|by rewrite Hc in Hattrs].
    apply existsb_exists. exists (attr_str tag attr). split; [|done].
    set_solver.
Qed.

(** ** The theorems at concrete inputs *)



(** C5 at a link back to the page being processed: it is not enqueued. *)
Lemma page_fetched_once_and_crawl_halts_witness :
  let args := Examples.args_for "http://loop.example/" in
  enqueue (H:=Reference.lib Examples.loop_docs) args {["loop.example"]}
    {["http://loop.example/"]} [] "http://loop.example/" = [].
Proof.
  cbv zeta.
  apply (page_fetched_once_and_crawl_halts (H:=Reference.lib Examples.loop_docs)
           Examples.loop_web (Examples.args_for "http://loop.example/")).
  apply elem_of_singleton. reflexivity.
Defined.


(** C9 at a candidate whose first URL has been seen: the loop over it
    returns the state it was given. *)
Lemma first_url_resolved_once_witness :
  let lib := Reference.lib Examples.cat_docs in
  let args := Examples.args_for "http://h.example/" in
  let candidate :=
    mkImageCandidate "http://h.example/" ["http://h.example/img/cat-thumb.jpg"] false in
  let st :=
    mkCrawl [] ∅ {["http://h.example/img/cat-thumb.jpg"]} empty_env 0
            (mkTally 0 0 0 0 0) [] in
  candidates_loop (H:=lib) Examples.cat_web args [] "http://h.example/" "/out"
    [candidate] st
  = candidates_loop (H:=lib) Examples.cat_web args [] "http://h.example/" "/out" [] st.
Proof.
  cbv zeta.
  apply (proj1 (first_url_resolved_once (H:=Reference.lib Examples.cat_docs)
                  Examples.cat_web (Examples.args_for "http://h.example/")))
    with (first := "http://h.example/img/cat-thumb.jpg") (more := []).
  - reflexivity.
  - cbn [seen_image_urls]. apply elem_of_singleton. reflexivity.
Defined.


(** ** Strings: prefixes, suffixes, occurrences and stripping *)

Section Occurrences.

Lemma app_assoc_s (a b c : string) : (a +:+ b) +:+ c = a +:+ (b +:+ c).
Proof.
  induction a as [|x a IH]; [done|].
  rewrite !app_cons. by rewrite IH.
Qed.

Lemma startswith_iff p s : startswith p s = true ↔ ∃ post, s = p +:+ post.
Proof.
  unfold startswith. revert s. induction p as [|a p IH]; intros s.
  - split; [intros _; by exists s|]. intros _. by destruct s.
  - destruct s as [|b s]; simpl.
    + split; [done|]. by intros (post & ?).
    + destruct (ascii_dec a b) as [->|Hne].
      * rewrite IH. split.
        -- intros (post & ->). by exists post.
        -- intros (post & Heq). rewrite app_cons in Heq. injection Heq as ->.
           by exists post.
      * split; [done|]. intros (post & Heq). rewrite app_cons in Heq.
        injection Heq as -> _. done.
Qed.

Lemma startswith_nil s : startswith EmptyString s = true.
Proof. by destruct s. Qed.

Lemma str_in_iff k s : str_in k s = true ↔ ∃ pre post, s = pre +:+ k +:+ post.
Proof.
  induction s as [|c s IH].
  - cbn [str_in]. rewrite startswith_iff. split.
    + intros (post & Heq). by exists EmptyString, post.
    + intros (pre & post & Heq). destruct pre; [by exists post|done].
  - cbn [str_in]. rewrite orb_true_iff, startswith_iff, IH. split.
    + intros [(post & Heq)|(pre & post & ->)].
      * by exists EmptyString, post.
      * by exists (String c pre), post.
    + intros (pre & post & Heq). destruct pre as [|d pre].
      * left. by exists post.
      * right. rewrite app_cons in Heq. injection Heq as -> ->. by exists pre, post.
Qed.

Lemma rev_onto_eq s acc : rev_onto s acc = rev s +:+ acc.
Proof.
  unfold rev. revert acc. induction s as [|c s IH]; intros acc; simpl; [done|].
  rewrite (IH (String c acc)), (IH (String c EmptyString)).
  by rewrite app_assoc_s.
Qed.

Lemma rev_app a b : rev (a +:+ b) = rev b +:+ rev a.
Proof. unfold rev at 1. by rewrite rev_onto_app, rev_onto_eq. Qed.


Lemma each_char_app f a b : each_char f (a +:+ b) = each_char f a && each_char f b.
Proof.
  induction a as [|c a IH]; [done|].
  rewrite app_cons. simpl. by rewrite IH, andb_assoc.
Qed.

Lemma each_char_rev f s : each_char f (rev s) = each_char f s.
Proof.
  induction s as [|c s IH]; [done|].
  change (String c s) with (String c EmptyString +:+ s) at 1.
  rewrite rev_app, each_char_app, IH. simpl. rewrite andb_true_r. apply andb_comm.
Qed.

Lemma each_char_lstrip_by f g s :
  each_char f s = true → each_char f (lstrip_by g s) = true.
Proof.
  induction s as [|c s IH]; simpl; [done|].
  intros [Hc Hs]%andb_true_iff. destruct (g c); [by apply IH|].
  simpl. by rewrite Hc, Hs.
Qed.

Lemma each_char_strip_by f g s :
  each_char f s = true → each_char f (strip_by g s) = true.
Proof.
  intros Hs. unfold strip_by. rewrite each_char_rev.
  apply each_char_lstrip_by. rewrite each_char_rev. by apply each_char_lstrip_by.
Qed.

Lemma each_char_impl (f g : ascii → bool) s :
  (∀ c, f c = true → g c = true) → each_char f s = true → each_char g s = true.
Proof.
  intros Hfg. induction s as [|c s IH]; simpl; [done|].
  intros [Hc Hs]%andb_true_iff. by rewrite (Hfg _ Hc), IH.
Qed.

(** *** Stripping *)

Lemma head_is_lstrip_by f s : head_is f (lstrip_by f s) = false.
Proof.
  induction s as [|c s IH]; simpl; [done|].
  destruct (f c) eqn:Hc; [done|]. simpl. done.
Qed.

Lemma lstrip_by_fixed f s : head_is f s = false → lstrip_by f s = s.
Proof. destruct s as [|c s]; simpl; [done|]. by intros ->. Qed.

(** Stripping from the left never goes past a character that stays. *)
Lemma lstrip_by_snoc f s c :
  f c = false →
  ∃ t, lstrip_by f (s +:+ String c EmptyString) = t +:+ String c EmptyString.
Proof.
  intros Hc. induction s as [|d s IH].
  - exists EmptyString. change (lstrip_by f (String c EmptyString) = String c EmptyString).
    simpl. by rewrite Hc.
  - rewrite app_cons. simpl. destruct (f d); [done|].
    exists (String d s). by rewrite app_cons.
Qed.

Lemma head_is_strip_by f s : head_is f (strip_by f s) = false.
Proof.
  unfold strip_by.
  destruct (lstrip_by f s) as [|c t] eqn:Ht; [done|].
  pose proof (lstrip_by_head _ _ _ _ Ht) as Hc.
  change (String c t) with (String c EmptyString +:+ t).
  rewrite rev_app.
  change (rev (String c EmptyString)) with (String c EmptyString).
  destruct (lstrip_by_snoc f (rev t) c Hc) as (u & ->).
  rewrite rev_app. simpl. done.
Qed.

Lemma head_is_rev_strip_by f s : head_is f (rev (strip_by f s)) = false.
Proof. unfold strip_by. rewrite rev_rev. apply head_is_lstrip_by. Qed.

Lemma strip_by_fixed f s :
  head_is f s = false → head_is f (rev s) = false → strip_by f s = s.
Proof.
  intros H1 H2. unfold strip_by.
  by rewrite (lstrip_by_fixed f s H1), (lstrip_by_fixed f _ H2), rev_rev.
Qed.

Lemma strip_by_idemp f s : strip_by f (strip_by f s) = strip_by f s.
Proof. apply strip_by_fixed; [apply head_is_strip_by|apply head_is_rev_strip_by]. Qed.

Lemma head_is_impl (f g : ascii → bool) s :
  (∀ c, g c = true → f c = true) → head_is f s = false → head_is g s = false.
Proof.
  intros Hgf. destruct s as [|c s]; simpl; [done|].
  intros Hc. destruct (g c) eqn:Hg; [|done]. by rewrite (Hgf _ Hg) in Hc.
Qed.

(** *** Lower case *)

Lemma is_space_lower_ascii c : is_space (lower_ascii c) = is_space c.
Proof. by destruct c as [[] [] [] [] [] [] [] []]. Qed.

Lemma is_upper_lower_ascii c : is_upper (lower_ascii c) = false.
Proof. by destruct c as [[] [] [] [] [] [] [] []]. Qed.

Lemma lower_ascii_fixed c : is_upper c = false → lower_ascii c = c.
Proof. unfold lower_ascii. by intros ->. Qed.

Lemma lower_fixed s : each_char (λ c, negb (is_upper c)) s = true → lower s = s.
Proof.
  induction s as [|c s IH]; simpl; [done|].
  intros [Hc Hs]%andb_true_iff. apply negb_true_iff in Hc.
  by rewrite (lower_ascii_fixed _ Hc), IH.
Qed.

Lemma each_char_lower s : each_char (λ c, negb (is_upper c)) (lower s) = true.
Proof.
  induction s as [|c s IH]; simpl; [done|].
  by rewrite is_upper_lower_ascii, IH.
Qed.

Lemma lower_rev s : lower (rev s) = rev (lower s).
Proof.
  induction s as [|c s IH]; [done|].
  change (String c s) with (String c EmptyString +:+ s) at 1.
  rewrite rev_app, lower_app, IH. simpl.
  change (String (lower_ascii c) (lower s))
    with (String (lower_ascii c) EmptyString +:+ lower s).
  by rewrite rev_app.
Qed.

Lemma lower_lstrip_space s :
  lower (lstrip_by is_space s) = lstrip_by is_space (lower s).
Proof.
  induction s as [|c s IH]; simpl; [done|].
  rewrite is_space_lower_ascii. by destruct (is_space c).
Qed.

Lemma lower_strip s : lower (strip s) = strip (lower s).
Proof.
  unfold strip, strip_by.
  by rewrite lower_rev, lower_lstrip_space, lower_rev, lower_lstrip_space.
Qed.

Lemma lower_empty s : lower s = EmptyString → s = EmptyString.
Proof. by destruct s. Qed.

End Occurrences.

(** ** File names *)

Section FileNames.

Lemma name_char_sep : name_char "_"%char = true.
Proof. done. Qed.

Lemma each_char_squash_other in_run s :
  each_char name_char (squash_other in_run s) = true.
Proof.
  revert in_run. induction s as [|c s IH]; intros in_run; simpl; [done|].
  destruct (name_char c) eqn:Hc; simpl.
  - by rewrite Hc, IH.
  - destruct in_run; [apply IH|]. simpl. apply IH.
Qed.

Lemma squash_other_fixed s :
  each_char name_char s = true → squash_other false s = s.
Proof.
  induction s as [|c s IH]; simpl; [done|].
  intros [Hc Hs]%andb_true_iff. by rewrite Hc, IH.
Qed.

Lemma name_char_not_upper c : name_char c = true → negb (is_upper c) = true.
Proof. by destruct c as [[] [] [] [] [] [] [] []]. Qed.

Lemma name_char_not_space c : is_space c = true → name_char c = false.
Proof. by destruct c as [[] [] [] [] [] [] [] []]. Qed.

Lemma head_is_each_char (f g : ascii → bool) s :
  (∀ c, g c = true → f c = false) → each_char f s = true → head_is g s = false.
Proof.
  intros Hgf. destruct s as [|c s]; simpl; [done|].
  intros [Hc _]%andb_true_iff. destruct (g c) eqn:Hg; [|done].
  by rewrite (Hgf _ Hg) in Hc.
Qed.

(** The shape of a sanitized name. *)
Lemma sanitize_name_shape text :
  let name := sanitize_name text in
  let edge c := Ascii.eqb c "."%char || Ascii.eqb c "_"%char in
  name ≠ EmptyString
  ∧ each_char name_char name = true
  ∧ head_is edge name = false
  ∧ head_is edge (rev name) = false.
Proof.
  cbv zeta. unfold sanitize_name. unfold truthy. case_bool_decide as Hne.
  - split_and!.
    + done.
    + apply each_char_strip_by, each_char_squash_other.
    + apply head_is_strip_by.
    + apply head_is_rev_strip_by.
  - by vm_compute.
Qed.

End FileNames.

(** [sanitize_name] always returns a usable file or folder name: it is not
    empty, it is made of the characters [a-z], [0-9], [.], [_] and [-] only
    (so it has no [/], no blank and no upper-case letter), and it neither starts
    nor ends with [.] or [_] (so it is neither [.] nor [..]). *)
Theorem sanitize_name_safe (text : string) :
  let name := sanitize_name text in
  let edge c := Ascii.eqb c "."%char || Ascii.eqb c "_"%char in
  name ≠ EmptyString
  ∧ each_char name_char name = true
  ∧ head_is edge name = false
  ∧ head_is edge (rev name) = false.
Proof. apply sanitize_name_shape. Qed.

(** Sanitizing a sanitized name changes nothing. *)
Theorem sanitize_name_idempotent (text : string) :
  sanitize_name (sanitize_name text) = sanitize_name text.
Proof.
  destruct (sanitize_name_shape text) as (Hne & Hchars & Hhead & Hlast).
  cbv zeta in *. set (name := sanitize_name text) in *.
  unfold sanitize_name at 1.
  assert (strip name = name) as ->.
  { apply strip_by_fixed.
    - eapply head_is_each_char; [apply name_char_not_space|done].
    - eapply head_is_each_char; [apply name_char_not_space|].
      by rewrite each_char_rev. }
  assert (lower name = name) as ->.
  { apply lower_fixed. eapply each_char_impl; [apply name_char_not_upper|done]. }
  rewrite (squash_other_fixed _ Hchars), (strip_by_fixed _ _ Hhead Hlast).
  unfold truthy. by rewrite bool_decide_eq_true_2.
Qed.

(** ** Keywords *)

Section Keywords.

Lemma each_char_occurrence f pre k post :
  each_char f (pre +:+ k +:+ post) = true → each_char f k = true.
Proof.
  rewrite !each_char_app. by intros [_ [? _]%andb_true_iff]%andb_true_iff.
Qed.

Lemma keyword_match_occurs value keywords :
  keyword_match value keywords = true ↔
    ∃ k, k ∈ keywords ∧ ∃ pre post, lower value = pre +:+ k +:+ post.
Proof.
  unfold keyword_match. rewrite existsb_exists. split.
  - intros (k & Hk & Hin). exists k. split; [by apply list_elem_of_In|].
    by apply str_in_iff.
  - intros (k & Hk & Hin). exists k. split; [by apply list_elem_of_In|].
    by apply str_in_iff.
Qed.

End Keywords.

(** [keyword_match] is true exactly when some keyword occurs in the
    lower-cased value. The value is compared without regard to (ASCII) case,
    the keywords are not: a keyword with an upper-case letter never matches.
    The empty keyword matches every value, and no value matches an empty list
    of keywords. *)
Theorem keyword_match_iff (value : string) (keywords : list string) :
  (keyword_match value keywords = true ↔
     ∃ k, k ∈ keywords ∧ ∃ pre post, lower value = pre +:+ k +:+ post)
  ∧ keyword_match (lower value) keywords = keyword_match value keywords
  ∧ (Forall (λ k, each_char (λ c, negb (is_upper c)) k = false) keywords →
     keyword_match value keywords = false)
  ∧ (EmptyString ∈ keywords → keyword_match value keywords = true)
  ∧ keyword_match value [] = false.
Proof.
  split_and!.
  - apply keyword_match_occurs.
  - apply keyword_match_lower.
  - intros Hup. apply not_true_iff_false.
    intros (k & Hk & pre & post & Heq)%keyword_match_occurs.
    rewrite Forall_forall in Hup. specialize (Hup k Hk).
    pose proof (each_char_lower value) as Hlow. rewrite Heq in Hlow.
    apply each_char_occurrence in Hlow. congruence.
  - intros Hin. apply keyword_match_occurs. exists EmptyString. split; [done|].
    by exists EmptyString, (lower value).
  - done.
Qed.

(** The skip keywords the crawl uses are the [--skip-url-keyword] values
    that are not blank, trimmed and lower-cased: none is empty, each is its
    own lower case and has no blank at either end. So a URL matches them
    exactly when one of the non-blank values given, trimmed, occurs in the URL
    without regard to case on either side. *)
Theorem skip_keywords_of_clean (args : Args) (url : string) :
  Forall (λ k, k ≠ EmptyString ∧ lower k = k ∧ strip k = k)
         (skip_keywords_of args)
  ∧ (keyword_match url (skip_keywords_of args) = true ↔
       ∃ k, k ∈ skip_url_keyword args
            ∧ strip k ≠ EmptyString
            ∧ ∃ pre post, lower url = pre +:+ lower (strip k) +:+ post).
Proof.
  assert (∀ u, u ∈ skip_keywords_of args ↔
               ∃ k, k ∈ skip_url_keyword args ∧ strip k ≠ EmptyString
                    ∧ u = lower (strip k)) as Hmem.
  { intros u. unfold skip_keywords_of. rewrite list_elem_of_fmap. split.
    - intros (k & -> & [Hk Hin]%list_elem_of_filter). exists k.
      split_and!; [done| |done]. by apply bool_decide_eq_true in Hk.
    - intros (k & Hin & Hk & ->). exists k. split; [done|].
      apply list_elem_of_filter. split; [|done]. by apply bool_decide_eq_true. }
  split.
  - apply Forall_forall. intros u (k & _ & Hk & ->)%Hmem. split_and!.
    + by intros ?%lower_empty.
    + apply lower_lower.
    + rewrite <- lower_strip. f_equal. apply strip_by_idemp.
  - rewrite keyword_match_occurs. split.
    + intros (u & (k & Hin & Hk & ->)%Hmem & Hocc). by exists k.
    + intros (k & Hin & Hk & Hocc). exists (lower (strip k)). split; [|done].
      apply Hmem. by exists k.
Qed.

(** ** URL normalization *)


(** ** Image URLs and file extensions *)

Section Extensions.
Context `{PyLib}.




End Extensions.



(** ** Profile images *)

Section Profile.

Local Abbreviation marked := (λ text, keyword_match text PROFILE_MARKERS).

Lemma scan_attr_marked attrs acc attr :
  existsb marked (scan_attr attrs acc attr)
  = existsb marked acc || existsb marked (attr_texts (attrs !! attr)).
Proof.
  unfold scan_attr, attr_texts.
  destruct (attrs !! attr) as [[s|l]|]; simpl.
  - destruct s as [|c s]; simpl.
    + by rewrite orb_false_r.
    + by rewrite existsb_app.
  - by rewrite existsb_app.
  - by rewrite orb_false_r.
Qed.

Lemma scan_attrs_marked attrs names :
  ∀ acc,
    existsb marked (foldl (scan_attr attrs) acc names)
    = existsb marked acc
      || existsb (λ attr, existsb marked (attr_texts (attrs !! attr))) names.
Proof.
  induction names as [|attr names IH]; intros acc; simpl.
  - by rewrite orb_false_r.
  - by rewrite IH, scan_attr_marked, orb_assoc.
Qed.

Lemma existsb_attr_texts (attrs : gmap string AttrVal) names :
  existsb (λ attr, existsb marked (attr_texts (attrs !! attr))) names = true ↔
    ∃ attr text, attr ∈ names ∧ text ∈ attr_texts (attrs !! attr)
                 ∧ keyword_match text PROFILE_MARKERS = true.
Proof.
  rewrite existsb_exists. split.
  - intros (attr & Hin & (text & Ht & Hm)%existsb_exists).
    exists attr, text. by rewrite !list_elem_of_In.
  - intros (attr & text & Hin & Ht & Hm). exists attr.
    split; [by apply list_elem_of_In|]. apply existsb_exists. exists text.
    split; [by apply list_elem_of_In|done].
Qed.

End Profile.

(** An image is taken for a profile image exactly when a profile marker
    occurs (without regard to case) in its URL, in one of its own [class],
    [id], [alt] or [title] values, or in a [class] or [id] value of its
    parent element. Nothing else is looked at: not the other attributes, and
    no ancestor beyond the parent. *)
Theorem is_likely_profile_image_iff (tag : Tag) (url : string) :
  is_likely_profile_image tag url = true ↔
    keyword_match url PROFILE_MARKERS = true
    ∨ (∃ attr text, attr ∈ ["class"; "id"; "alt"; "title"]
                    ∧ text ∈ attr_texts (tag_get tag attr)
                    ∧ keyword_match text PROFILE_MARKERS = true)
    ∨ (∃ parent rest attr text,
         tag_ancestors tag = parent :: rest
         ∧ attr ∈ ["class"; "id"]
         ∧ text ∈ attr_texts (parent.2 !! attr)
         ∧ keyword_match text PROFILE_MARKERS = true).
Proof.
  unfold is_likely_profile_image. cbv zeta. rewrite keyword_match_lower.
  destruct (keyword_match url PROFILE_MARKERS); [by split; [left|]|].
  destruct (tag_ancestors tag) as [|parent rest].
  - rewrite scan_attrs_marked. simpl existsb at 1. rewrite orb_false_l.
    rewrite existsb_attr_texts. split; [by right; left|].
    intros [?|[?|(? & ? & ? & ? & ? & _)]]; done.
  - rewrite !scan_attrs_marked. simpl existsb at 1. rewrite orb_false_l.
    rewrite orb_true_iff, !existsb_attr_texts. split.
    + intros [?|(attr & text & ?)]; [by right; left|].
      right. right. by exists parent, rest, attr, text.
    + intros [?|[?|(p & r & attr & text & [= <- <-] & ?)]]; [done|by left|].
      right. by exists attr, text.
Qed.

(** ** Content links *)

Section ContentLinks.





End ContentLinks.


(** ** Link discovery *)

Section Discovery.
Context `{PyLib}.

(** A loop that adds to a set. *)
Lemma foldl_adds {A} (step : gset string → A → gset string)
    (adds : A → string → Prop) (l : list A) :
  (∀ acc x u, u ∈ step acc x ↔ u ∈ acc ∨ adds x u) →
  ∀ init u, u ∈ foldl step init l ↔ u ∈ init ∨ ∃ x, x ∈ l ∧ adds x u.
Proof.
  intros Hstep. induction l as [|x l IH]; intros init u; simpl.
  - split; [by left|]. intros [?|(x & ?%elem_of_nil & _)]; done.
  - rewrite IH, Hstep. split.
    + intros [[?|?]|(y & ? & ?)]; [by left| |].
      * right. exists x. split; [left|done].
      * right. exists y. split; [by right|done].
    + intros [?|(y & [->|?]%elem_of_cons & ?)]; [by left; left|by left; right|].
      right. by exists y.
Qed.

(** A loop on a pair whose components do not look at each other. *)
Lemma foldl_pair {A B C} (f : B → A → B) (g : C → A → C)
    (step : B * C → A → B * C) (l : list A) :
  (∀ b c x, step (b, c) x = (f b x, g c x)) →
  ∀ b c, foldl step (b, c) l = (foldl f b l, foldl g c l).
Proof.
  intros Hstep. induction l as [|x l IH]; intros b c; simpl; [done|].
  by rewrite Hstep, IH.
Qed.

Lemma elem_of_find_all soup name t :
  t ∈ find_all soup name ↔ t ∈ soup ∧ tag_name t = name.
Proof. unfold find_all. rewrite list_elem_of_filter. tauto. Qed.

Lemma discover_links_spec (soup : Soup) (page : string)
    (follow_content_links : bool) :
  let links := discover_links soup page follow_content_links in
  (∀ u, u ∈ links.1 ↔
        (∃ link, link ∈ soup ∧ tag_name link = "link" ∧ href_of page link = Some u
                 ∧ str_in "next" (rel_text link) = true)
        ∨ (∃ a, a ∈ soup ∧ tag_name a = "a" ∧ href_of page a = Some u
                ∧ (is_next_link a u = true
                   ∨ existsb (λ anc : string * gmap string AttrVal, pagination_class anc.2)
                             (tag_ancestors a) = true)))
  ∧ (∀ u, u ∈ links.2 ↔
          follow_content_links = true
          ∧ ∃ a, a ∈ soup ∧ tag_name a = "a" ∧ href_of page a = Some u
                 ∧ is_probable_content_link a u = true).
Proof.
  cbv zeta. unfold discover_links.
  set (step1 := λ (next_links : gset string) link,
         match href_of page link with
         | Some normalized =>
             if str_in "next" (rel_text link) then {[normalized]} ∪ next_links
             else next_links
         | None => next_links
         end).
  set (step2n := λ (next_links : gset string) a,
         match href_of page a with
         | Some normalized =>
             if is_next_link a normalized then {[normalized]} ∪ next_links
             else next_links
         | None => next_links
         end).
  set (step2c := λ (content_links : gset string) a,
         match href_of page a with
         | Some normalized =>
             if follow_content_links && is_probable_content_link a normalized
             then {[normalized]} ∪ content_links else content_links
         | None => content_links
         end).
  set (step3 := λ (next_links : gset string) a,
         if existsb (λ anc : string * gmap string AttrVal, pagination_class anc.2)
                    (tag_ancestors a)
         then match href_of page a with
              | Some normalized => {[normalized]} ∪ next_links
              | None => next_links
              end
         else next_links).
  rewrite (foldl_pair step2n step2c);
    [|intros b c x; simpl; unfold step2n, step2c; by destruct (href_of page x)].
  cbn [fst snd].
  pose proof (foldl_adds step1
    (λ link u, href_of page link = Some u ∧ str_in "next" (rel_text link) = true)
    (find_all soup "link")) as H1.
  pose proof (foldl_adds step2n
    (λ a u, href_of page a = Some u ∧ is_next_link a u = true)
    (find_all soup "a")) as H2.
  pose proof (foldl_adds step2c
    (λ a u, follow_content_links = true ∧ href_of page a = Some u
            ∧ is_probable_content_link a u = true)
    (find_all soup "a")) as H3.
  pose proof (foldl_adds step3
    (λ a u, href_of page a = Some u
            ∧ existsb (λ anc : string * gmap string AttrVal, pagination_class anc.2)
                      (tag_ancestors a) = true)
    (find_all soup "a")) as H4.
  split.
  - intros u. rewrite H4, H2, H1; clear H1 H2 H3 H4.
    + split.
      * intros [[[?%elem_of_empty|(x & [? ?]%elem_of_find_all & ? & ?)]
                |(x & [? ?]%elem_of_find_all & ? & ?)]
               |(x & [? ?]%elem_of_find_all & ? & ?)]; [done|left|right|right];
          exists x; tauto.
      * intros [(x & ? & ? & ? & ?)|(x & ? & ? & ? & [?|?])].
        -- left. left. right. exists x. by rewrite elem_of_find_all.
        -- left. right. exists x. by rewrite elem_of_find_all.
        -- right. exists x. by rewrite elem_of_find_all.
    + intros acc x v. unfold step1.
      destruct (href_of page x) as [n|]; [|split; [by left|by intros [?|[? _]]]].
      destruct (str_in "next" (rel_text x)).
      * rewrite elem_of_union, elem_of_singleton. split.
        -- intros [->|?]; [by right|by left].
        -- intros [?|[[= ->] _]]; [by right|by left].
      * split; [by left|by intros [?|[_ ?]]].
    + intros acc x v. unfold step2n.
      destruct (href_of page x) as [n|]; [|split; [by left|by intros [?|[? _]]]].
      destruct (is_next_link x n) eqn:Hn.
      * rewrite elem_of_union, elem_of_singleton. split.
        -- intros [->|?]; [by right|by left].
        -- intros [?|[[= ->] _]]; [by right|by left].
      * split; [by left|]. intros [?|[[= ->] ?]]; [done|congruence].
    + intros acc x v. unfold step3.
      destruct (existsb _ (tag_ancestors x)); [|split; [by left|by intros [?|[_ ?]]]].
      destruct (href_of page x) as [n|]; [|split; [by left|by intros [?|[? _]]]].
      rewrite elem_of_union, elem_of_singleton. split.
      * intros [->|?]; [by right|by left].
      * intros [?|[[= ->] _]]; [by right|by left].
  - intros u. rewrite H3; clear H1 H2 H3 H4.
    + split.
      * intros [?%elem_of_empty|(x & [? ?]%elem_of_find_all & ? & ? & ?)]; [done|].
        split; [done|]. by exists x.
      * intros [? (x & ? & ? & ? & ?)]. right. exists x. by rewrite elem_of_find_all.
    + intros acc x v. unfold step2c.
      destruct (href_of page x) as [n|]; [|split; [by left|by intros [?|(_ & ? & _)]]].
      destruct follow_content_links; simpl;
        [|split; [by left|by intros [?|(? & _)]]].
      destruct (is_probable_content_link x n) eqn:Hn.
      * rewrite elem_of_union, elem_of_singleton. split.
        -- intros [->|?]; [by right|by left].
        -- intros [?|(_ & [= ->] & _)]; [by right|by left].
      * split; [by left|]. intros [?|(_ & [= ->] & ?)]; [done|congruence].
Qed.

End Discovery.

(** What [discover_links] returns. A URL is a next link exactly when it is
    the normalized [href] of a [link] element whose [rel] contains [next], or
    of an anchor that [is_next_link] accepts or that lies below an element
    whose class matches the pagination pattern. A URL is a content link exactly
    when content links are followed and it is the normalized [href] of an
    anchor that [is_probable_content_link] accepts. So nothing is returned that
    is not the usable [href] of a [link] or [a] element of the page, and no
    content link is returned when they are not followed. *)
Theorem discover_links_iff `{PyLib} (soup : Soup) (page : string)
    (follow_content_links : bool) :
  let links := discover_links soup page follow_content_links in
  (∀ u, u ∈ links.1 ↔
        (∃ link, link ∈ soup ∧ tag_name link = "link" ∧ href_of page link = Some u
                 ∧ str_in "next" (rel_text link) = true)
        ∨ (∃ a, a ∈ soup ∧ tag_name a = "a" ∧ href_of page a = Some u
                ∧ (is_next_link a u = true
                   ∨ existsb (λ anc : string * gmap string AttrVal, pagination_class anc.2)
                             (tag_ancestors a) = true)))
  ∧ (∀ u, u ∈ links.2 ↔
          follow_content_links = true
          ∧ ∃ a, a ∈ soup ∧ tag_name a = "a" ∧ href_of page a = Some u
                 ∧ is_probable_content_link a u = true).
Proof. apply discover_links_spec. Qed.

(** ** The candidates of a page *)

Section CandidateShape.
Context `{PyLib}.

Lemma bind_return {A B} (a : A) (f : A → result B) : Return a ≫= f = f a.
Proof. done. Qed.

Lemma dedup_nested (sources : list string) :
  ∀ st,
    foldl (λ st u, foldl dedup_step st (guess_fullsize_variants u)) st sources
    = foldl dedup_step st (concat (guess_fullsize_variants <$> sources)).
Proof.
  induction sources as [|u sources IH]; intros st; simpl; [done|].
  by rewrite foldl_app, IH.
Qed.

(** An [img] candidate is of the page, and its URLs are pairwise distinct. *)
Lemma img_candidate_urls page img c :
  img_candidate page img = Return (Some c) →
  page_url c = page ∧ NoDup (urls c) ∧ urls c ≠ [].
Proof.
  unfold img_candidate.
  destruct (if truthy_attr (tag_get img "srcset") then _ else _) as [urls0|e];
    simpl; [|done].
  rewrite dedup_nested.
  match goal with
  | |- context [foldl dedup_step _ ?l] =>
      destruct (dedup_loop_fresh l) as (out & -> & Hnd & _)
  end.
  simpl. destruct out as [|first more]; [done|]. by intros [= <-].
Qed.

(** What an anchor candidate is made of. *)
Lemma anchor_candidate_urls page a c :
  anchor_candidate page a = Some c →
  page_url c = page ∧ NoDup (urls c) ∧ skip_profile c = false
  ∧ ∃ u, href_of page a = Some u
         ∧ urls c = guess_fullsize_variants u
         ∧ looks_like_image_url u = true
         ∧ keyword_match u PROFILE_MARKERS = false.
Proof.
  unfold anchor_candidate, href_of.
  destruct (negb (truthy_attr (tag_get a "href"))); [done|].
  destruct (normalize_url _ page) as [u|]; [|done].
  destruct (truthy u) eqn:Hu; simpl; [|done].
  destruct (looks_like_image_url u) eqn:Hi; simpl; [|done].
  destruct (keyword_match u PROFILE_MARKERS) eqn:Hk; [done|].
  intros [= <-]. simpl. split_and!; try done.
  - destruct (guess_fullsize_variants_spec u) as (r & -> & Hnd & _). done.
  - by exists u.
Qed.

(** The two loops that collect the candidates. *)
Lemma img_loop_spec page imgs :
  ∀ acc out,
    foldM (λ out img,
             c ← img_candidate page img;
             Return (match c with Some c => out ++ [c] | None => out end))
          imgs acc = Return out →
    ∃ more, out = acc ++ more
            ∧ ∀ c, c ∈ more ↔
                   ∃ img, img ∈ imgs ∧ img_candidate page img = Return (Some c).
Proof.
  induction imgs as [|img imgs IH]; intros acc out; simpl.
  - intros [= <-]. exists []. rewrite app_nil_r. split; [done|].
    intros c. split; [by intros ?%elem_of_nil|]. by intros (? & ?%elem_of_nil & _).
  - destruct (img_candidate page img) as [[c0|]|e] eqn:Hc; simpl; [| |done].
    + intros (more & -> & Hin)%IH. exists (c0 :: more).
      rewrite <- app_assoc. split; [done|]. intros c.
      rewrite elem_of_cons, Hin. split.
      * intros [->|(i & ? & ?)]; [exists img; split; [left|done]|].
        exists i. split; [by right|done].
      * intros (i & [->|?]%elem_of_cons & Hi); [left; congruence|].
        right. by exists i.
    + intros (more & -> & Hin)%IH. exists more. split; [done|]. intros c.
      rewrite Hin. split.
      * intros (i & ? & ?). exists i. split; [by right|done].
      * intros (i & [->|?]%elem_of_cons & Hi); [congruence|]. by exists i.
Qed.

Lemma anchor_loop_spec page anchors :
  ∀ out,
    foldl (λ out a, match anchor_candidate page a with
                    | Some c => out ++ [c]
                    | None => out
                    end) out anchors
    = out ++ omap (anchor_candidate page) anchors.
Proof.
  induction anchors as [|a anchors IH]; intros out; simpl.
  - by rewrite app_nil_r.
  - rewrite IH. destruct (anchor_candidate page a); [|done].
    by rewrite <- app_assoc.
Qed.

(** The last loop keeps, of the candidates with the same first URL, the
    earliest. *)
Lemma first_url_loop_spec (out : list ImageCandidate) :
  ∀ acc seen st',
    foldM first_url_step out (acc, seen) = Return st' →
    ∃ more,
      st'.1 = acc ++ more
      ∧ NoDup (first_of <$> more)
      ∧ ∀ c, c ∈ more ↔
             ∃ i, out !! i = Some c
                  ∧ (∀ k, first_of c = Some k → k ∉ seen)
                  ∧ ∀ j c', (j < i)%nat → out !! j = Some c' →
                            first_of c' ≠ first_of c.
Proof.
  induction out as [|c0 out IH]; intros acc seen st'; cbn [foldM].
  - intros [= <-]. exists []. rewrite app_nil_r. split_and!; [done|constructor|].
    intros c. split; [by intros ?%elem_of_nil|]. by intros (i & ? & _).
  - destruct (urls c0) as [|key rest] eqn:Hu.
    { assert (first_url_step (acc, seen) c0 = Raise IndexError) as ->
        by (unfold first_url_step; by rewrite Hu).
      done. }
    assert (first_url_step (acc, seen) c0
            = if bool_decide (key ∈ seen) then Return (acc, seen)
              else Return (acc ++ [c0], {[key]} ∪ seen)) as ->
      by (unfold first_url_step; by rewrite Hu).
    assert (first_of c0 = Some key) as Hkey by (unfold first_of; by rewrite Hu).
    case_bool_decide as Hseen; rewrite bind_return.
    + intros (more & -> & Hnd & Hin)%IH. exists more. split_and!; [done|done|].
      intros c. rewrite Hin. split.
      * intros (i & Hi & Hk & Hbefore). exists (S i). split_and!; [done|done|].
        intros [|j] c' Hj; simpl.
        -- intros [= <-]. rewrite Hkey. intros Heq. symmetry in Heq.
           by apply Hk in Heq.
        -- apply Hbefore. lia.
      * intros ([|i] & Hi & Hk & Hbefore); simpl in Hi.
        -- injection Hi as <-. by apply Hk in Hkey.
        -- exists i. split_and!; [done|done|].
           intros j c' Hj Hc'. apply (Hbefore (S j)); [lia|done].
    + intros (more & -> & Hnd & Hin)%IH. exists (c0 :: more).
      rewrite <- app_assoc. split_and!; [done| |].
      * rewrite fmap_cons. constructor; [|done].
        rewrite Hkey. intros (c & Hc & (i & _ & Hk & _)%Hin)%list_elem_of_fmap.
        symmetry in Hc. apply Hk in Hc. apply Hc.
        apply elem_of_union_l, elem_of_singleton. done.
      * intros c. rewrite elem_of_cons, Hin. split.
        -- intros [->|(i & Hi & Hk & Hbefore)].
           ++ exists 0%nat. split_and!; [done| |intros; lia].
              intros k. rewrite Hkey. by intros [= <-].
           ++ exists (S i). split_and!; [done| |].
              ** intros k Hc ?. apply (Hk k Hc). by apply elem_of_union_r.
              ** intros [|j] c' Hj; simpl.
                 --- intros [= <-]. rewrite Hkey. intros Heq. symmetry in Heq.
                     apply Hk in Heq. apply Heq.
                     apply elem_of_union_l, elem_of_singleton. done.
                 --- apply Hbefore. lia.
        -- intros ([|i] & Hi & Hk & Hbefore); simpl in Hi.
           ++ left. congruence.
           ++ right. exists i. split_and!; [done| |].
              ** intros k Hc [->%elem_of_singleton|?]%elem_of_union; [|by eapply Hk].
                 apply (Hbefore 0%nat c0); [lia|done|congruence].
              ** intros j c' Hj Hc'. apply (Hbefore (S j)); [lia|done].
Qed.

Lemma extract_image_candidates_sources (soup : Soup) (page : string) :
  let from_img c :=
    ∃ img, img ∈ soup ∧ tag_name img = "img" ∧ img_candidate page img = Return (Some c) in
  let from_anchor c :=
    ∃ a, a ∈ soup ∧ tag_name a = "a" ∧ anchor_candidate page a = Some c in
  match extract_image_candidates soup page with
  | Raise e => e = OverflowError
  | Return candidates =>
      Forall (λ c, page_url c = page ∧ NoDup (urls c) ∧ urls c ≠ []) candidates
      ∧ NoDup (first_of <$> candidates)
      ∧ (∀ c, c ∈ candidates → from_img c ∨ from_anchor c)
      ∧ (∀ c, from_img c ∨ from_anchor c →
              ∃ c', c' ∈ candidates ∧ first_of c' = first_of c)
      ∧ (∀ c c', from_img c → c' ∈ candidates → first_of c' = first_of c →
                 from_img c')
      ∧ (∀ c, from_anchor c → skip_profile c = false)
  end.
Proof.
  cbv zeta. pose proof (extract_image_candidates_spec soup page) as Hspec.
  destruct (extract_image_candidates soup page) as [candidates|e] eqn:Hex; [|done].
  clear Hspec. revert Hex. unfold extract_image_candidates.
  destruct (foldM _ (find_all soup "img") []) as [A|e] eqn:Himg; simpl; [|done].
  apply img_loop_spec in Himg as (A' & -> & HA). simpl in *.
  rewrite anchor_loop_spec.
  set (B := omap (anchor_candidate page) (find_all soup "a")).
  assert (∀ c, c ∈ B ↔ ∃ a, a ∈ find_all soup "a" ∧ anchor_candidate page a = Some c)
    as HB by (intros c; apply list_elem_of_omap).
  destruct (foldM first_url_step (A' ++ B) ([], ∅)) as [st'|e] eqn:Hloop; simpl; [|done].
  apply first_url_loop_spec in Hloop as (kept & Hst & Hnd & Hkept). simpl in Hst.
  intros [= <-]. rewrite Hst. clear Hst st'.
  assert (∀ c, c ∈ A' ++ B →
            (∃ img, img ∈ soup ∧ tag_name img = "img"
                    ∧ img_candidate page img = Return (Some c))
            ∨ (∃ a, a ∈ soup ∧ tag_name a = "a" ∧ anchor_candidate page a = Some c))
    as Hsrc.
  { intros c [(img & [? ?]%elem_of_find_all & ?)%HA
             |(a & [? ?]%elem_of_find_all & ?)%HB]%elem_of_app.
    - left. by exists img.
    - right. by exists a. }
  assert (∀ c, c ∈ kept → c ∈ A' ++ B) as Hsub.
  { intros c (i & Hi & _)%Hkept. by eapply list_elem_of_lookup_2. }
  (* the earliest candidate with a given first URL is kept *)
  assert (∀ n c, (A' ++ B) !! n = Some c →
            ∃ i c', (i ≤ n)%nat ∧ (A' ++ B) !! i = Some c' ∧ c' ∈ kept
                    ∧ first_of c' = first_of c) as Hearliest.
  { induction n as [n IHn] using lt_wf_ind. intros c Hn.
    destruct (decide (Exists (λ c', first_of c' = first_of c) (take n (A' ++ B))))
      as [(c' & (j & [Hc' Hj]%lookup_take_Some)%list_elem_of_lookup & Heq)%Exists_exists
         |Hno].
    - destruct (IHn j Hj c' Hc') as (i & c'' & ? & ? & ? & ?).
      exists i, c''. split_and!; [lia|done|done|congruence].
    - exists n, c. split_and!; [lia|done| |done]. apply Hkept. exists n.
      split_and!; [done|by intros k _ ?%elem_of_empty|].
      intros j c' Hj Hc' Heq. apply Hno, Exists_exists. exists c'. split; [|done].
      apply (list_elem_of_lookup_2 _ j). by apply lookup_take_Some. }
  split_and!.
  - apply Forall_forall. intros c [(img & _ & _ & Hc)|(a & _ & _ & Hc)]%Hsub%Hsrc.
    + by apply img_candidate_urls in Hc.
    + apply anchor_candidate_urls in Hc as (? & ? & _ & u & _ & Hu & _).
      split_and!; [done|done|]. rewrite Hu.
      by destruct (guess_fullsize_variants_spec u) as (r & -> & _).
  - done.
  - intros c Hc. by apply Hsrc, Hsub.
  - intros c Hc.
    assert (c ∈ A' ++ B) as Hin.
    { apply elem_of_app. destruct Hc as [(img & ? & ? & ?)|(a & ? & ? & ?)].
      - left. apply HA. exists img. by rewrite elem_of_find_all.
      - right. apply HB. exists a. by rewrite elem_of_find_all. }
    apply list_elem_of_lookup in Hin as (n & Hn).
    destruct (Hearliest n c Hn) as (i & c' & _ & _ & ? & ?). by exists c'.
  - intros c c' (img & ? & ? & Hc) Hc' Heq.
    assert (c ∈ A') as Hin by (apply HA; exists img; by rewrite elem_of_find_all).
    apply list_elem_of_lookup in Hin as (n & Hn).
    apply Hkept in Hc' as (i & Hi & _ & Hbefore).
    destruct (decide (i < length A')%nat) as [Hlt|Hge].
    + rewrite lookup_app_l in Hi by done.
      apply list_elem_of_lookup_2, HA in Hi as (img' & [? ?]%elem_of_find_all & ?).
      by exists img'.
    + exfalso. apply (Hbefore n c).
      * apply lookup_lt_Some in Hn. lia.
      * by apply lookup_app_l_Some.
      * done.
  - intros c (a & _ & _ & Hc). by apply anchor_candidate_urls in Hc as (_ & _ & ? & _).
Qed.

End CandidateShape.



(** ** Variants: how many, and which *)

Section VariantCount.
Context `{PyLib}.
Import urllib.

Lemma set_iter_length l : (length (set_iter l) ≤ length l)%nat.
Proof.
  apply submseteq_length, NoDup_submseteq; [apply set_iter_NoDup|].
  intros x. by rewrite set_iter_elem.
Qed.

Lemma raw_variants_length url : (length (raw_variants url) ≤ 7)%nat.
Proof.
  unfold raw_variants. cbn [length]. rewrite length_app, length_fmap.
  pose proof (length_filter (changes_path url)
                (set_iter (path_rewrites (path (urlparse url))))) as Hf.
  pose proof (set_iter_length (path_rewrites (path (urlparse url)))) as Hs.
  unfold path_rewrites in Hs at 2. cbn [length] in Hs.
  case_bool_decide; cbn [length]; lia.
Qed.

End VariantCount.

(** [guess_fullsize_variants] returns between one and seven URLs: the
    input, at most one query-stripped variant and at most five path
    variants. So a candidate made from a link costs at most seven GETs. *)
Theorem guess_fullsize_variants_length `{PyLib} (url : string) :
  (1 ≤ length (guess_fullsize_variants url) ≤ 7)%nat.
Proof.
  split.
  - destruct (guess_fullsize_variants_spec url) as (rest & -> & _). simpl. lia.
  - rewrite guess_fullsize_variants_unfold.
    destruct (dedup_loop_fresh (raw_variants url)) as (out & -> & _ & _ & Hsub).
    apply sublist_length in Hsub. pose proof (raw_variants_length url). simpl. lia.
Qed.

(** The order in which a process iterates its sets changes the order of
    the variants and nothing else: two libraries that agree on [urlparse],
    [urlunparse] and [parse_qsl] give the same variants, up to order. *)
Theorem guess_fullsize_variants_order_only (lib1 lib2 : PyLib) (url : string) :
  @urlparse lib1 = @urlparse lib2 →
  @urlunparse lib1 = @urlunparse lib2 →
  @parse_qsl lib1 = @parse_qsl lib2 →
  guess_fullsize_variants (H:=lib1) url ≡ₚ guess_fullsize_variants (H:=lib2) url.
Proof.
  intros Hparse Hunparse Hqsl.
  destruct (guess_fullsize_variants_spec (H:=lib1) url) as (r1 & -> & Hnd1 & Hin1).
  destruct (guess_fullsize_variants_spec (H:=lib2) url) as (r2 & -> & Hnd2 & Hin2).
  apply NoDup_Permutation; [done|done|]. intros v. rewrite Hin1, Hin2.
  unfold strip_thumbnail_query_params, changes_path, with_path.
  by rewrite Hparse, Hunparse, Hqsl.
Qed.

(** ** URLs without a thumbnail marker *)

Section Absent.











End Absent.


(** ** What the resolver returns *)

Section Outcomes.
Context `{PyLib}.
Variable web : string -> option Response.
Variables (candidate : ImageCandidate) (output_dir : string) (dry_run : bool)
          (skip_url_keywords : list string).
Local Abbreviation run :=
  (download_image_from web candidate output_dir dry_run skip_url_keywords).

Lemma run_failed todo :
  ∀ env,
    (status_of (run todo env).1 = failed_all_variants ↔
       todo = []
       ∨ (skip_profile candidate = false
          ∧ Forall (λ url, keyword_match url skip_url_keywords = false
                           ∧ accepted web url = None) todo))
    ∧ (status_of (run todo env).1 = failed_all_variants →
       (run todo env).2
       = mkEnv (seen_hashes env) (files env)
               (requests env ++ ((λ u, (ImageGet, u)) <$> todo))).
Proof.
  induction todo as [|url rest IH]; intros env.
  - rewrite run_nil. split; [by split; [left|]|]. intros _. simpl.
    rewrite app_nil_r. by destruct env.
  - destruct (keyword_match url skip_url_keywords) eqn:Hk.
    { rewrite run_keyword by done. unfold status_of. cbn [fst snd].
      split; [|done]. split; [done|].
      intros [?|[_ [[? _] _]%Forall_cons]]; [done|congruence]. }
    destruct (skip_profile candidate) eqn:Hp.
    { rewrite run_profile by done. unfold status_of. cbn [fst snd].
      split; [|done]. split; [done|].
      intros [?|[? _]]; [done|congruence]. }
    destruct (accepted web url) as [[ctype data]|] eqn:Ha.
    + rewrite (run_accepted _ _ _ _ _ _ _ _ _ _ Hk Hp Ha). cbv zeta.
      unfold status_of.
      case_bool_decide; [|destruct dry_run]; cbn [fst snd]; (split; [|done]);
        (split; [done|]); (intros [?|[_ [[_ ?] _]%Forall_cons]]; [done|congruence]).
    + rewrite (run_rejected _ _ _ _ _ _ _ _ Hk Hp Ha).
      destruct (IH (get ImageGet url env)) as [Hiff Henv]. split.
      * rewrite Hiff. split.
        -- intros [->|[_ Hall]]; right; (split; [done|]).
           ++ by repeat constructor.
           ++ by constructor.
        -- intros [?|[_ [_ Hall]%Forall_cons]]; [done|]. right. by split.
      * intros Hf. rewrite (Henv Hf). simpl. by rewrite <- app_assoc.
Qed.

(** The four kinds of verdict, with what each does to the shared state. *)
Lemma run_cases todo :
  ∀ env,
    ∃ status path n digest env',
      run todo env = ((status, path, n, digest), env')
      ∧ ((status = downloaded ∧ dry_run = false
          ∧ ∃ url ctype data,
              url ∈ todo
              ∧ path = Some (saved_path output_dir url ctype (sha256_hexdigest data))
              ∧ n = Some (byte_count data)
              ∧ digest = Some (sha256_hexdigest data)
              ∧ (sha256_hexdigest data ∉ seen_hashes env)
              ∧ seen_hashes env' = {[sha256_hexdigest data]} ∪ seen_hashes env
              ∧ files env'
                = files env
                  ++ [(saved_path output_dir url ctype (sha256_hexdigest data), data)])
         ∨ (status = would_download ∧ dry_run = true ∧ path = None
            ∧ ∃ d, digest = Some d ∧ (d ∉ seen_hashes env)
                   ∧ seen_hashes env' = {[d]} ∪ seen_hashes env
                   ∧ files env' = files env)
         ∨ (status = duplicate ∧ path = None
            ∧ ∃ d, digest = Some d ∧ d ∈ seen_hashes env
                   ∧ seen_hashes env' = seen_hashes env ∧ files env' = files env)
         ∨ (status ∈ [skipped_profile; skipped_custom_keyword; failed_all_variants]
            ∧ path = None ∧ n = None ∧ digest = None
            ∧ seen_hashes env' = seen_hashes env ∧ files env' = files env))
      ∧ ∃ tried, requests env' = requests env ++ ((λ u, (ImageGet, u)) <$> tried).
Proof.
  induction todo as [|url rest IH]; intros env.
  - rewrite run_nil. eexists _, _, _, _, _. split; [done|]. split.
    + right. right. right. split_and!; try done. set_solver.
    + exists []. by rewrite app_nil_r.
  - destruct (keyword_match url skip_url_keywords) eqn:Hk.
    { rewrite run_keyword by done. eexists _, _, _, _, _. split; [done|]. split.
      - right. right. right. split_and!; try done. set_solver.
      - exists []. by rewrite app_nil_r. }
    destruct (skip_profile candidate) eqn:Hp.
    { rewrite run_profile by done. eexists _, _, _, _, _. split; [done|]. split.
      - right. right. right. split_and!; try done. set_solver.
      - exists []. by rewrite app_nil_r. }
    destruct (accepted web url) as [[ctype data]|] eqn:Ha.
    + rewrite (run_accepted _ _ _ _ _ _ _ _ _ _ Hk Hp Ha). cbv zeta.
      case_bool_decide as Hd; [|destruct dry_run eqn:Hdry];
        (eexists _, _, _, _, _; split; [done|]; split; [|by exists [url]]).
      * right. right. left. split_and!; try done. by eexists.
      * right. left. split_and!; try done. by eexists.
      * left. split_and!; try done. exists url, ctype, data.
        split_and!; try done. left.
    + rewrite (run_rejected _ _ _ _ _ _ _ _ Hk Hp Ha).
      destruct (IH (get ImageGet url env))
        as (status & path & n & digest & env' & -> & Hcase & tried & Hreq).
      exists status, path, n, digest, env'. split; [done|]. split.
      * destruct Hcase as [(? & ? & u & ct & data & ? & ?)|Hcase]; [|by right].
        left. split_and!; try done. exists u, ct, data. split; [by right|done].
      * exists (url :: tried). rewrite Hreq. simpl. by rewrite <- app_assoc.
Qed.

End Outcomes.

(** [download_image] reports [failed_all_variants] exactly when the
    candidate has no URL, or is not flagged as a profile image and every one of
    its variants matched no skip keyword and was rejected after its GET; every
    variant has then been requested, in order, and nothing else has changed. *)
Theorem failed_all_variants_iff `{PyLib} (web : string → option Response)
    (candidate : ImageCandidate) (output_dir : string) (dry_run : bool)
    (skip_url_keywords : list string) (env : Env) :
  let r := download_image web candidate output_dir env dry_run skip_url_keywords in
  (status_of r.1 = failed_all_variants ↔
     urls candidate = []
     ∨ (skip_profile candidate = false
        ∧ Forall (λ url, keyword_match url skip_url_keywords = false
                         ∧ accepted web url = None) (urls candidate)))
  ∧ (status_of r.1 = failed_all_variants →
     r.2 = mkEnv (seen_hashes env) (files env)
                 (requests env ++ ((λ u, (ImageGet, u)) <$> urls candidate))).
Proof. apply run_failed. Qed.

(** ** The books of a crawl: counters, files and digests against the manifest *)

Section Rows.
Context `{PyLib}.
Variable args : Args.

Lemma filter_snoc {A} (P : A → Prop) `{∀ x, Decision (P x)} (l : list A) (x : A) :
  filter P (l ++ [x]) = filter P l ++ (if bool_decide (P x) then [x] else []).
Proof.
  rewrite filter_app. f_equal. rewrite filter_cons, filter_nil.
  destruct (decide (P x)).
  - by rewrite bool_decide_eq_true_2.
  - by rewrite bool_decide_eq_false_2.
Qed.

Lemma rows_with_snoc status rows row :
  length (rows_with status (rows ++ [row]))
  = (length (rows_with status rows)
     + (if bool_decide (row_status row = status) then 1 else 0))%nat.
Proof.
  unfold rows_with. rewrite filter_snoc, length_app. by case_bool_decide.
Qed.

Lemma tally_ok_snoc t rows row :
  tally_ok t rows → tally_ok (count (row_status row) t) (rows ++ [row]).
Proof.
  unfold tally_ok. cbv zeta. rewrite !rows_with_snoc.
  intros (H1 & H2 & H3 & H4 & H5).
  destruct (row_status row); simpl;
    repeat (rewrite bool_decide_eq_true_2 by done);
    repeat (rewrite bool_decide_eq_false_2 by done);
    split_and!; lia.
Qed.

Lemma rows_with_total rows :
  (length rows
   = length (rows_with downloaded rows) + length (rows_with would_download rows)
     + length (rows_with skipped_profile rows) + length (rows_with duplicate rows)
     + length (rows_with failed_all_variants rows)
     + length (rows_with skipped_custom_keyword rows))%nat.
Proof.
  induction rows as [|row rows IH]; [done|].
  unfold rows_with in *. rewrite !filter_cons. simpl length at 1. rewrite IH.
  destruct (row_status row);
    repeat (destruct (decide _) as [?|?]; [try done|try done]); simpl; lia.
Qed.

Lemma files_ok_snoc fs fs' rows row :
  files_ok args fs rows →
  (row_status row = downloaded ∧ dry_run args = false
   ∧ ∃ data name,
       fs' = fs ++ [(row_saved_path row, data)]
       ∧ row_sha256 row = sha256_hexdigest data
       ∧ row_bytes row = Some (byte_count data)
       ∧ row_saved_path row = images_dir args (row_page_url row) +:+ "/" +:+ name)
  ∨ (row_status row ≠ downloaded ∧ fs' = fs ∧ row_saved_path row = EmptyString
     ∧ (row_status row = would_download → dry_run args = true)) →
  files_ok args fs' (rows ++ [row]).
Proof.
  intros (Hf & Hpath & Hdir & Hdry) Hrow. unfold files_ok, rows_with.
  rewrite filter_snoc, fmap_app, !Forall_app, !Forall_singleton.
  destruct Hrow as [(Hs & Hd & data & name & -> & Hsha & Hn & Hp)
                   |(Hs & -> & Hp & Hw)].
  - rewrite bool_decide_eq_true_2 by done. split_and!; try done.
    + rewrite fmap_app. f_equal; [done|]. simpl. unfold file_facts, row_facts. simpl.
      by rewrite Hsha, Hn.
    + intros _. split; [done|]. by exists name.
    + rewrite Hs. done.
  - rewrite bool_decide_eq_false_2 by done. split_and!; try done.
    simpl. by rewrite app_nil_r.
Qed.

Lemma kept_rows_elem rows r :
  r ∈ kept_rows rows ↔ row_status r ∈ [downloaded; would_download] ∧ r ∈ rows.
Proof. unfold kept_rows. by rewrite list_elem_of_filter. Qed.

Lemma digests_ok_snoc hashes hashes' rows row :
  digests_ok hashes rows →
  (row_status row ∈ [downloaded; would_download] ∧ (row_sha256 row ∉ hashes)
   ∧ hashes' = {[row_sha256 row]} ∪ hashes)
  ∨ (row_status row = duplicate ∧ row_sha256 row ∈ hashes ∧ hashes' = hashes)
  ∨ ((row_status row ∉ [downloaded; would_download; duplicate]) ∧ hashes' = hashes) →
  digests_ok hashes' (rows ++ [row]).
Proof.
  intros (Hh & Hnd & Hdup) Hrow. unfold digests_ok, kept_rows.
  rewrite filter_snoc.
  assert (∀ i r, (rows ++ [row]) !! i = Some r → row_status r = duplicate →
                 (row_status row = duplicate → row_sha256 row ∈ hashes) →
                 ∃ j r', (j < i)%nat ∧ (rows ++ [row]) !! j = Some r'
                         ∧ row_status r' ∈ [downloaded; would_download]
                         ∧ row_sha256 r' = row_sha256 r) as Hearlier.
  { intros i r Hi Hs Hin.
    destruct (decide (i < length rows)%nat) as [Hlt|Hge].
    - rewrite lookup_app_l in Hi by done.
      destruct (Hdup i r Hi Hs) as (j & r' & ? & ? & ? & ?).
      exists j, r'. split_and!; try done. by apply lookup_app_l_Some.
    - assert (i = length rows ∧ r = row) as [-> ->].
      { pose proof (lookup_lt_Some _ _ _ Hi) as Hlen.
        rewrite length_app in Hlen. simpl in Hlen.
        assert (i = length rows) as -> by lia.
        rewrite lookup_app_r, Nat.sub_diag in Hi by lia. simpl in Hi.
        by injection Hi as ->. }
      specialize (Hin Hs). rewrite Hh in Hin.
      apply elem_of_list_to_set, list_elem_of_fmap in Hin as (r' & Heq & Hr').
      apply kept_rows_elem in Hr' as [Hst (j & Hj)%list_elem_of_lookup].
      exists j, r'. split_and!; try done.
      + by apply lookup_lt_Some in Hj.
      + by apply lookup_app_l_Some. }
  destruct Hrow as [(Hs & Hnew & ->)|[(Hs & Hin & ->)|(Hs & ->)]].
  - rewrite bool_decide_eq_true_2 by done. rewrite fmap_app. simpl. split_and!.
    + rewrite list_to_set_app_L, Hh. simpl.
      rewrite (right_id_L ∅ (∪)). by rewrite (comm_L (∪)).
    + apply NoDup_app. split_and!; [done| |apply NoDup_singleton].
      intros d Hd ->%list_elem_of_singleton. apply Hnew. rewrite Hh.
      by apply elem_of_list_to_set.
    + intros i r Hi Hr. apply Hearlier; [done|done|].
      intros Hd. rewrite Hd in Hs. set_solver.
  - rewrite bool_decide_eq_false_2 by (rewrite Hs; set_solver).
    rewrite app_nil_r. split_and!; [done|done|].
    intros i r Hi Hr. by apply Hearlier.
  - rewrite bool_decide_eq_false_2 by set_solver.
    rewrite app_nil_r. split_and!; [done|done|].
    intros i r Hi Hr. apply Hearlier; [done|done|]. intros Hd. set_solver.
Qed.

End Rows.

Section Books.
Context `{PyLib}.
Variable web : string -> option Response.
Variable args : Args.
Variable allowed_hosts : gset string.
Variable skip_keywords : list string.

Local Abbreviation loop := (candidates_loop web args skip_keywords).
Local Abbreviation step := (crawl_step web args allowed_hosts skip_keywords).

Local Ltac not_listed :=
  let Hin := fresh in
  intros Hin; repeat (apply elem_of_cons in Hin as [?|Hin]; [congruence|]);
  by apply elem_of_nil in Hin.

(** The loop over the candidates of a page keeps the books, and its rows
    are rows of that page. *)
Lemma candidates_loop_books page candidates :
  ∀ st,
    tally_ok (tally st) (manifest st) →
    files_ok args (files (env st)) (manifest st) →
    digests_ok (seen_hashes (env st)) (manifest st) →
    let st' := (loop page (images_dir args page) candidates st).1 in
    tally_ok (tally st') (manifest st')
    ∧ files_ok args (files (env st')) (manifest st')
    ∧ digests_ok (seen_hashes (env st')) (manifest st')
    ∧ ∃ rows, manifest st' = manifest st ++ rows
              ∧ Forall (λ r, row_page_url r = page) rows.
Proof.
  induction candidates as [|c cs IH]; intros st Ht Hf Hd; cbn [candidates_loop].
  - split_and!; try done. exists []. by rewrite app_nil_r.
  - destruct (urls c) as [|first more] eqn:Hu.
    { split_and!; try done. exists []. by rewrite app_nil_r. }
    case_bool_decide as Hseen; [by apply IH|].
    unfold download_image. rewrite Hu.
    destruct (run_cases web c (images_dir args page) (dry_run args) skip_keywords
                (first :: more) (env st))
      as (status & path & n & digest & env' & -> & Hcase & _).
    set (row := mkRow page first status (default "" path) n (default "" digest)
                      (length (first :: more))).
    match goal with |- context [loop page _ cs ?s] => set (st1 := s) end.
    destruct (IH st1) as (Ht' & Hf' & Hd' & rows & Hrows & Hpage).
    + apply (tally_ok_snoc (tally st) (manifest st) row Ht).
    + apply (files_ok_snoc args (files (env st)) (files env') (manifest st) row Hf).
      destruct Hcase as [(-> & Hdry & url & ctype & data & _ & -> & -> & -> & _ & _ & ->)
                        |[(-> & Hdry & -> & d & -> & _ & _ & ->)
                         |[(-> & -> & d & -> & _ & _ & ->)
                          |(Hs & -> & -> & -> & _ & ->)]]].
      all: subst row; simpl.
      * left. split_and!; try done. eexists data, _. split_and!; try done.
      * right. by split_and!.
      * right. by split_and!.
      * right. split_and!; try done.
        -- intros ->. revert Hs. not_listed.
        -- intros ->. revert Hs. not_listed.
    + apply (digests_ok_snoc (seen_hashes (env st)) (seen_hashes env') (manifest st)
               row Hd).
      destruct Hcase as [(-> & _ & url & ctype & data & _ & -> & -> & -> & Hnew & -> & _)
                        |[(-> & _ & -> & d & -> & Hnew & -> & _)
                         |[(-> & -> & d & -> & Hin & -> & _)
                          |(Hs & -> & -> & -> & -> & _)]]].
      all: subst row; simpl.
      * left. split_and!; [set_solver|done|done].
      * left. split_and!; [set_solver|done|done].
      * right. left. by split_and!.
      * right. right. split; [|done]. intros Hin. revert Hs.
        repeat (apply elem_of_cons in Hin as [->|Hin]; [not_listed|]).
        by apply elem_of_nil in Hin.
    + split_and!; try done. exists (row :: rows). split.
      * rewrite Hrows. simpl. by rewrite <- app_assoc.
      * by constructor.
Qed.

(** The states one iteration can lead to. *)
Lemma crawl_step_shape st :
  let st' := step_state (step st) in
  st' = st
  ∨ ∃ page rest,
      queue st = page :: rest ∧ total_pages st < max_pages args
      ∧ ((∃ visited e,
            st' = mkCrawl rest visited (seen_image_urls st) e (total_pages st)
                          (tally st) (manifest st)
            ∧ (e = env st ∨ e = get PageGet page (env st)))
         ∨ (let st1 := mkCrawl rest ({[page]} ∪ visited_pages st) (seen_image_urls st)
                               (get PageGet page (env st)) (total_pages st + 1)
                               (tally st) (manifest st) in
            st' = st1
            ∨ ∃ soup candidates,
                extract_image_candidates soup page = Return candidates
                ∧ let st2 := (loop page (images_dir args page) candidates st1).1 in
                  st' = st2
                  ∨ ∃ follow,
                      let found := discover_links soup page follow in
                      st' = mkCrawl
                              (foldl (enqueue args allowed_hosts (visited_pages st2))
                                     (queue st2) (sorted (found.1 ∪ found.2)))
                              (visited_pages st2) (seen_image_urls st2) (env st2)
                              (total_pages st2) (tally st2) (manifest st2))).
Proof.
  cbv zeta. unfold crawl_step.
  destruct (queue st) as [|page rest] eqn:Hq; [by left|].
  case_bool_decide as Ht; simpl; [|by left].
  right. exists page, rest. split_and!; [done|done|].
  case_bool_decide as Hv; simpl.
  { left. eexists _, _. split; [done|by left]. }
  destruct (negb (allow_cross_domain args) && _); simpl.
  { left. eexists _, _. split; [done|by left]. }
  destruct (web page) as [resp|]; simpl.
  2: { left. eexists _, _. split; [done|by right]. }
  destruct (bool_decide (status_code resp >= 400) || negb (is_html_response resp));
    simpl.
  { left. eexists _, _. split; [done|by right]. }
  right.
  destruct (extract_image_candidates _ _) as [candidates|e] eqn:Hex; simpl;
    [|by left].
  right. exists (parse_html (text resp)), candidates. split; [done|].
  fold (images_dir args page).
  destruct (loop page (images_dir args page) candidates _) as [st2 [e|]]; simpl;
    [by left|].
  right. exists (negb (no_follow_content_links args)).
  by destruct (discover_links _ _ _) as [next_links content_links].
Qed.

Lemma enqueue_loop_hosts visited links :
  allow_cross_domain args = false →
  ∀ queue,
    Forall (λ url, host_of url ∈ allowed_hosts) queue →
    Forall (λ url, host_of url ∈ allowed_hosts)
           (foldl (enqueue args allowed_hosts visited) queue links).
Proof.
  intros Hc. induction links as [|link links IH]; intros queue Hq; simpl; [done|].
  apply IH. unfold enqueue. rewrite Hc. case_bool_decide; [done|]. simpl.
  case_bool_decide as Hh; [done|]. apply Forall_app. split; [done|].
  by constructor.
Qed.

Lemma gets_snoc_page reqs page :
  gets PageGet (reqs ++ [(PageGet, page)]) = gets PageGet reqs ++ [page].
Proof. rewrite gets_app. f_equal. Qed.

Lemma pages_ok_get st page visited :
  pages_ok args st →
  pages_ok args (mkCrawl (tail (queue st)) visited (seen_image_urls st)
                         (get PageGet page (env st)) (total_pages st)
                         (tally st) (manifest st)).
Proof.
  intros (H0 & Hmax & Hlen & Hrows). unfold pages_ok. simpl.
  rewrite gets_snoc_page, length_app. simpl. split_and!; [done|done|lia|].
  eapply Forall_impl; [done|]. intros r Hr. simpl in Hr. apply elem_of_app. by left.
Qed.

Lemma books_ok_step st :
  books_ok args allowed_hosts st → books_ok args allowed_hosts (step_state (step st)).
Proof.
  intros Hbooks.
  destruct (crawl_step_shape st)
    as [->|(page & rest & Hq & Hlt & [(visited & e & -> & He)|Hproc])]; [done| |].
  - destruct Hbooks as (Ht & Hf & Hd & Hp & Hqueue).
    assert (pages_ok args (mkCrawl rest visited (seen_image_urls st) e (total_pages st)
                                   (tally st) (manifest st))) as Hp'.
    { destruct He as [->| ->].
      - by destruct Hp as (? & ? & ? & ?).
      - pose proof (pages_ok_get st page visited Hp) as Hg. by rewrite Hq in Hg. }
    split_and!; [done| | |done|].
    + by destruct He as [->| ->].
    + by destruct He as [->| ->].
    + intros Hc. specialize (Hqueue Hc). rewrite Hq in Hqueue.
      by apply Forall_cons in Hqueue as [_ ?].
  - cbv zeta in Hproc.
    set (st1 := mkCrawl rest ({[page]} ∪ visited_pages st) (seen_image_urls st)
                        (get PageGet page (env st)) (total_pages st + 1)
                        (tally st) (manifest st)) in *.
    assert (books_ok args allowed_hosts st1) as Hbooks1.
    { destruct Hbooks as (Ht & Hf & Hd & Hp & Hqueue).
      split_and!; [done|done|done| |].
      - destruct (pages_ok_get st page ({[page]} ∪ visited_pages st) Hp)
          as (_ & _ & _ & Hrows).
        destruct Hp as (H0 & Hmax & Hlen & _).
        unfold pages_ok, st1. simpl in *. split_and!; [lia|lia| |done].
        rewrite gets_snoc_page, length_app. simpl. lia.
      - intros Hc. specialize (Hqueue Hc). rewrite Hq in Hqueue.
        by apply Forall_cons in Hqueue as [_ ?]. }
    destruct Hproc as [->|(soup & candidates & _ & Hproc)]; [done|].
    set (st2 := (loop page (images_dir args page) candidates st1).1) in *.
    assert (books_ok args allowed_hosts st2) as Hbooks2.
    { destruct Hbooks1 as (Ht & Hf & Hd & Hp & Hqueue).
      destruct (candidates_loop_books page candidates st1 Ht Hf Hd)
        as (Ht2 & Hf2 & Hd2 & rows & Hrows & Hpage).
      destruct (candidates_loop_effect web args skip_keywords page
                  (images_dir args page) candidates st1)
        as (Hq2 & _ & Htot2 & (imgs & Hreq2) & _).
      fold st2 in Ht2, Hf2, Hd2, Hrows, Hq2, Htot2, Hreq2.
      split_and!; [done|done|done| |].
      - destruct Hp as (H0 & Hmax & Hlen & Hold). unfold pages_ok.
        rewrite Htot2, Hreq2, Hrows, gets_app.
        rewrite (gets_other PageGet ImageGet) by done. rewrite app_nil_r.
        split_and!; [done|done|done|]. apply Forall_app. split; [done|].
        eapply Forall_impl; [done|]. intros r ->. unfold st1. simpl.
        rewrite gets_snoc_page. apply elem_of_app. right. left.
      - intros Hc. rewrite Hq2. by apply Hqueue. }
    destruct Hproc as [->|(follow & ->)]; [done|].
    destruct Hbooks2 as (Ht & Hf & Hd & Hp & Hqueue).
    split_and!; [done|done|done|done|].
    intros Hc. simpl. apply enqueue_loop_hosts; [done|]. by apply Hqueue.
Qed.

Lemma books_ok_loop fuel :
  ∀ st, books_ok args allowed_hosts st →
        books_ok args allowed_hosts
          (state_of (crawl_loop web args allowed_hosts skip_keywords fuel st)).
Proof.
  induction fuel as [|fuel IH]; intros st Hbooks; simpl; [done|].
  pose proof (books_ok_step st Hbooks) as Hstep.
  destruct (step st); simpl in *; [by apply IH|done|done].
Qed.


End Books.

Section WholeCrawl.
Context `{PyLib}.
Variable web : string -> option Response.
Variable args : Args.

Lemma books_ok_initial q :
  Forall (λ url, host_of url ∈ allowed_hosts_of args) q →
  books_ok args (allowed_hosts_of args) (initial q).
Proof.
  intros Hq. split_and!.
  - by repeat split.
  - by repeat split.
  - split_and!; [done|constructor|]. by intros i r ?.
  - unfold pages_ok. simpl. split_and!; [lia|lia|lia|constructor].
  - by intros _.
Qed.

Lemma crawl_and_download_books fuel :
  books_ok args (allowed_hosts_of args) (state_of (crawl_and_download web args fuel)).
Proof.
  unfold crawl_and_download.
  destruct (valid_start_urls args) as [|u q] eqn:Hv.
  - apply books_ok_initial. constructor.
  - apply books_ok_loop, books_ok_initial. apply Forall_forall. intros url Hurl.
    unfold allowed_hosts_of. rewrite Hv. apply elem_of_list_to_set, list_elem_of_fmap.
    by exists url.
Qed.

End WholeCrawl.

(** ** The crawl, seen from outside *)

Section Ledger.


End Ledger.

(** At any point of the crawl, each of the five counters of the summary is
    the number of manifest rows of its status, [failed] being the number of
    [failed_all_variants] and [skipped_custom_keyword] rows together; so the
    counters add up to the number of rows. *)
Theorem crawl_tally_counts_rows `{PyLib} (web : string → option Response)
    (args : Args) (fuel : nat) :
  let st := state_of (crawl_and_download web args fuel) in
  let n status := Z.of_nat (length (rows_with status (manifest st))) in
  n_downloaded (tally st) = n downloaded
  ∧ n_would_download (tally st) = n would_download
  ∧ n_skipped_profile (tally st) = n skipped_profile
  ∧ n_duplicates (tally st) = n duplicate
  ∧ n_failed (tally st) = n failed_all_variants + n skipped_custom_keyword
  ∧ n_downloaded (tally st) + n_would_download (tally st) + n_skipped_profile (tally st)
    + n_duplicates (tally st) + n_failed (tally st)
    = Z.of_nat (length (manifest st)).
Proof.
  cbv zeta.
  destruct (crawl_and_download_books web args fuel) as ((H1 & H2 & H3 & H4 & H5) & _).
  cbv zeta in *. split_and!; try done.
  rewrite H1, H2, H3, H4, H5.
  pose proof (rows_with_total (manifest (state_of (crawl_and_download web args fuel)))).
  lia.
Qed.


(** Deduplication by SHA-256, at any point of the crawl: the rows whose
    bytes were kept ([downloaded] or [would_download]) have pairwise distinct
    digests, [seen_hashes] is the set of those digests, and every [duplicate]
    row carries the digest of a kept row that comes before it. *)
Theorem crawl_digests_distinct `{PyLib} (web : string → option Response)
    (args : Args) (fuel : nat) :
  let st := state_of (crawl_and_download web args fuel) in
  NoDup (row_sha256 <$> kept_rows (manifest st))
  ∧ seen_hashes (env st) = list_to_set (row_sha256 <$> kept_rows (manifest st))
  ∧ (∀ i r, manifest st !! i = Some r → row_status r = duplicate →
            ∃ j r', (j < i)%nat ∧ manifest st !! j = Some r'
                    ∧ row_status r' ∈ [downloaded; would_download]
                    ∧ row_sha256 r' = row_sha256 r).
Proof.
  cbv zeta.
  by destruct (crawl_and_download_books web args fuel) as (_ & _ & (? & ? & ?) & _).
Qed.

(** The page budget, at any point of the crawl: the number of pages
    crawled is not negative, never exceeds [--max-pages] (0 when that is
    negative) nor the number of page GETs issued; and every row of the manifest
    is of a page that was fetched. *)
Theorem crawl_pages_bounded `{PyLib} (web : string → option Response)
    (args : Args) (fuel : nat) :
  let st := state_of (crawl_and_download web args fuel) in
  (0 ≤ total_pages st)%Z
  ∧ (total_pages st ≤ Z.max 0 (max_pages args))%Z
  ∧ (total_pages st ≤ Z.of_nat (length (gets PageGet (requests (env st)))))%Z
  ∧ Forall (λ r, row_page_url r ∈ gets PageGet (requests (env st))) (manifest st).
Proof.
  cbv zeta. by destruct (crawl_and_download_books web args fuel) as (_ & _ & _ & ? & _).
Qed.



(** ** The order of the queue *)

Section Order.

Lemma str_le_total : Total str_le.
Proof. intros a b. apply String.leb_total. Qed.

Lemma leb_trans a :
  ∀ b c, String.leb a b = true → String.leb b c = true → String.leb a c = true.
Proof.
  unfold String.leb.
  induction a as [|x a IH]; intros [|y b] [|z c]; simpl; try done.
  unfold Ascii.compare.
  destruct (N.compare_spec (N_of_ascii x) (N_of_ascii y)) as [Hxy|Hxy|Hxy];
    destruct (N.compare_spec (N_of_ascii y) (N_of_ascii z)) as [Hyz|Hyz|Hyz];
    destruct (N.compare_spec (N_of_ascii x) (N_of_ascii z)) as [Hxz|Hxz|Hxz];
    try done; try lia.
  apply IH.
Qed.

Lemma str_le_trans : Transitive str_le.
Proof. intros a b c. apply leb_trans. Qed.

End Order.

(** The links of a page are enqueued in ascending order of their text,
    each once, behind what is queued already: the queue after the loop is the
    queue before it followed by the sorted links that are not visited and, with
    cross-domain crawling off, of an allowed host. The order is that of
    [sorted], not that of a set. *)
Theorem links_enqueued_in_order `{PyLib} (args : Args) (allowed_hosts visited : gset string)
    (queue : list string) (links : gset string) :
  foldl (enqueue args allowed_hosts visited) queue (sorted links)
  = queue ++ filter (λ link, (link ∉ visited)
                             ∧ (allow_cross_domain args = false →
                                host_of link ∈ allowed_hosts))
                    (sorted links)
  ∧ StronglySorted str_le (sorted links)
  ∧ NoDup (sorted links)
  ∧ ∀ link, link ∈ sorted links ↔ link ∈ links.
Proof.
  split_and!.
  - generalize (sorted links). intros l. revert queue.
    induction l as [|link l IH]; intros queue; simpl.
    + by rewrite app_nil_r.
    + rewrite IH, filter_cons. unfold enqueue.
      case_bool_decide as Hv.
      { rewrite decide_False; [done|]. by intros [? _]. }
      destruct (allow_cross_domain args) eqn:Hc; simpl.
      * rewrite decide_True; [|by split]. by rewrite <- app_assoc.
      * case_bool_decide as Hh.
        -- rewrite decide_False; [done|]. intros [_ Hin]. by apply Hh, Hin.
        -- rewrite decide_True; [|by split]. by rewrite <- app_assoc.
  - apply (@StronglySorted_merge_sort _ str_le _ str_le_trans str_le_total).
  - unfold sorted. rewrite merge_sort_Permutation. apply NoDup_elements.
  - intros link. unfold sorted. by rewrite merge_sort_Permutation, elem_of_elements.
Qed.

(** ** Page parameters and HTML responses *)

Section PageParam.



End PageParam.



(** ** Pagination blocks *)

Section PaginationBlocks.


End PaginationBlocks.


(** ** What the crawl requests *)

Section Requests.
Context `{PyLib}.

Lemma href_of_normalized page t u : href_of page t = Some u → normalized u.
Proof.
  unfold href_of. destruct (negb _); [done|].
  destruct (normalize_url _ page) as [v|] eqn:Hn; [|done].
  destruct (truthy v); [|done]. intros [= <-]. by eexists _, _.
Qed.

Lemma parse_srcset_best_normalized srcset base u :
  parse_srcset_best srcset base = Return (Some u) → normalized u.
Proof.
  unfold parse_srcset_best.
  destruct (foldM _ _ _) as [best|e] eqn:Hf; simpl; [|done]. intros [= Hu].
  revert Hf. generalize (split_on ","%char srcset). intros chunks Hf.
  assert (∀ v, best.1 = Some v → normalized v) as Hbest; [|by apply Hbest].
  revert Hf.
  apply (foldM_invariant (λ b : option string * Z, ∀ v, b.1 = Some v → normalized v)).
  - intros b chunk b' Hb. unfold srcset_step.
    destruct (negb (truthy (strip chunk))); [by intros [= <-]|].
    destruct (split_ws (strip chunk)) as [|raw bits]; [done|].
    destruct (normalize_url raw base) as [c|] eqn:Hn; [|by intros [= <-]].
    destruct (negb (truthy_opt (Some c))); [by intros [= <-]|].
    destruct (descriptor_score (raw :: bits)) as [score|e]; simpl; [|done].
    case_bool_decide; intros [= <-]; [|done].
    simpl. intros v [= <-]. by eexists _, _.
  - by intros v.
Qed.

Lemma elem_of_dedup_loop l x : x ∈ (foldl dedup_step ([], ∅) l).1 → x ∈ l.
Proof. destruct (dedup_loop_fresh l) as (out & -> & _ & Hin & _). apply Hin. Qed.

Lemma img_candidate_normalized page img c :
  img_candidate page img = Return (Some c) → Forall variant_of_normalized (urls c).
Proof.
  unfold img_candidate.
  destruct (if truthy_attr (tag_get img "srcset") then _ else _) as [urls0|e] eqn:Hs;
    simpl; [|done].
  assert (Forall normalized urls0) as H0.
  { destruct (truthy_attr (tag_get img "srcset")); [|by injection Hs as <-].
    destruct (parse_srcset_best _ page) as [[b|]|e] eqn:Hp; simpl in Hs;
      [| |done]; injection Hs as <-; [|done].
    destruct (truthy b); [|done]. constructor; [|done].
    by eapply parse_srcset_best_normalized. }
  clear Hs. rewrite dedup_nested.
  match goal with
  | |- context [concat (guess_fullsize_variants <$> ?l)] =>
      assert (Forall normalized l) as Hall; [|generalize dependent l; intros sources Hall]
  end.
  { assert (∀ attrs urls,
              Forall normalized urls →
              Forall normalized
                (foldl (λ urls attr,
                          let raw := tag_get img attr in
                          if truthy_attr raw
                          then match normalize_url (from_option py_str "" raw) page with
                               | Some normalized =>
                                   if truthy normalized then urls ++ [normalized]
                                   else urls
                               | None => urls
                               end
                          else urls) urls attrs)) as Hattrs.
    { induction attrs as [|attr attrs IH]; intros urls Hu; simpl; [done|].
      apply IH. destruct (truthy_attr _); [|done].
      destruct (normalize_url _ page) as [v|] eqn:Hn; [|done].
      destruct (truthy v); [|done]. apply Forall_app. split; [done|].
      constructor; [|done]. by eexists _, _. }
    specialize (Hattrs IMAGE_ATTRS urls0 H0).
    destruct (tag_ancestors img) as [|parent rest]; [done|].
    destruct (bool_decide (parent.1 = "a")); [|done].
    destruct (truthy_attr _); [|done].
    destruct (normalize_url _ page) as [v|] eqn:Hn; [|done].
    destruct (truthy v && looks_like_image_url v); [|done].
    constructor; [|done]. by eexists _, _. }
  destruct (foldl dedup_step _ _).1 as [|first more] eqn:Hd; [done|].
  intros [= <-]. simpl. rewrite <- Hd. apply Forall_forall. intros x Hx.
  apply elem_of_dedup_loop, list_elem_of_In, in_concat in Hx as (vs & Hvs & Hx).
  apply list_elem_of_In, list_elem_of_fmap in Hvs as (source & -> & Hsource).
  apply list_elem_of_In in Hx.
  exists source. split; [|done]. by eapply Forall_forall in Hall.
Qed.

Lemma extract_image_candidates_normalized soup page candidates :
  extract_image_candidates soup page = Return candidates →
  Forall (λ c, Forall variant_of_normalized (urls c)) candidates.
Proof.
  intros Hex. pose proof (extract_image_candidates_sources soup page) as Hsrc.
  cbv zeta in Hsrc. rewrite Hex in Hsrc. destruct Hsrc as (_ & _ & Hfrom & _).
  apply Forall_forall. intros c [(img & _ & _ & Hc)|(a & _ & _ & Hc)]%Hfrom.
  - by eapply img_candidate_normalized.
  - apply anchor_candidate_urls in Hc as (_ & _ & _ & u & Hu & -> & _).
    apply Forall_forall. intros x Hx. exists u. split; [|done].
    by eapply href_of_normalized.
Qed.

Lemma discover_links_normalized soup page follow u :
  u ∈ (discover_links soup page follow).1 ∪ (discover_links soup page follow).2 →
  normalized u.
Proof.
  destruct (discover_links_spec soup page follow) as [Hnext Hcontent].
  intros [[(t & _ & _ & Hu & _)|(t & _ & _ & Hu & _)]%Hnext
         |(_ & t & _ & _ & Hu & _)%Hcontent]%elem_of_union;
    by eapply href_of_normalized.
Qed.

Variable web : string -> option Response.
Variable args : Args.
Variable allowed_hosts : gset string.
Variable skip_keywords : list string.

Lemma candidates_loop_requests page dir candidates :
  Forall (λ c, Forall variant_of_normalized (urls c)) candidates →
  ∀ st,
    ∃ images,
      requests (env (candidates_loop web args skip_keywords page dir candidates st).1)
      = requests (env st) ++ ((λ u, (ImageGet, u)) <$> images)
      ∧ Forall variant_of_normalized images.
Proof.
  induction 1 as [|c cs Hc _ IH]; intros st; cbn [candidates_loop].
  - exists []. by rewrite app_nil_r.
  - destruct (urls c) as [|first more] eqn:Hu.
    { exists []. by rewrite app_nil_r. }
    case_bool_decide; [apply IH|].
    destruct (run_effect web c dir (dry_run args) skip_keywords (first :: more) (env st))
      as (tried & Hreq & Hpre & _).
    unfold download_image. rewrite Hu.
    destruct (download_image_from _ _ _ _ _ _ _) as [[[[status path] n] digest] env'].
    simpl in Hreq.
    match goal with
    | |- context [candidates_loop web args skip_keywords page dir cs ?s] =>
        destruct (IH s) as (images & -> & Himages)
    end.
    simpl. exists (tried ++ images). split.
    + by rewrite Hreq, fmap_app, app_assoc.
    + apply Forall_app. split; [|done]. apply Forall_forall. intros x Hx.
      eapply Forall_forall in Hc; [done|].
      destruct Hpre as (rest & ->). apply elem_of_app. by left.
Qed.

Lemma gets_image_snoc_page reqs page :
  gets ImageGet (reqs ++ [(PageGet, page)]) = gets ImageGet reqs.
Proof. rewrite gets_app. apply app_nil_r. Qed.

Lemma gets_images reqs images :
  gets ImageGet (reqs ++ ((λ u, (ImageGet, u)) <$> images))
  = gets ImageGet reqs ++ images.
Proof.
  rewrite gets_app. f_equal. unfold gets.
  induction images as [|u images IH]; [done|].
  rewrite fmap_cons, filter_cons_True by done. rewrite fmap_cons. by f_equal.
Qed.

Lemma requests_ok_step st :
  requests_ok st →
  requests_ok (step_state (crawl_step web args allowed_hosts skip_keywords st)).
Proof.
  intros (Hqueue & Hpages & Himages).
  destruct (crawl_step_shape web args allowed_hosts skip_keywords st)
    as [->|(page & rest & Hq & Hlt & Hcase)]; [done|].
  rewrite Hq in Hqueue. apply Forall_cons in Hqueue as [Hpage Hrest].
  assert (∀ visited seen total t rows,
            requests_ok (mkCrawl rest visited seen (get PageGet page (env st))
                                 total t rows)) as Hgot.
  { intros. unfold requests_ok. simpl.
    rewrite gets_snoc_page, gets_image_snoc_page. split_and!; [done| |done].
    apply Forall_app. split; [done|]. by constructor. }
  destruct Hcase as [(visited & e & -> & [->| ->])|Hproc]; [done|apply Hgot|].
  cbv zeta in Hproc. destruct Hproc as [->|(soup & candidates & Hex & Hproc)];
    [apply Hgot|].
  match type of Hproc with
  | context [candidates_loop _ _ _ _ ?dir _ ?s] =>
      set (st1 := s) in *; set (st2 := (candidates_loop web args skip_keywords page
                                          dir candidates st1).1) in *;
      destruct (candidates_loop_requests page dir candidates
                  (extract_image_candidates_normalized _ _ _ Hex) st1)
        as (images & Hreq & Himgs);
      destruct (candidates_loop_effect web args skip_keywords page dir candidates st1)
        as (Hq2 & _)
  end.
  fold st2 in Hreq, Hq2.
  assert (requests_ok st2) as Hok2.
  { destruct (Hgot ({[page]} ∪ visited_pages st) (seen_image_urls st)
                (total_pages st + 1) (tally st) (manifest st)) as (_ & Hp1 & Hi1).
    fold st1 in Hp1, Hi1. unfold requests_ok. rewrite Hq2, Hreq.
    split_and!; [done| |].
    - rewrite gets_app, (gets_other PageGet ImageGet) by done. by rewrite app_nil_r.
    - rewrite gets_images. apply Forall_app. by split. }
  destruct Hproc as [->|(follow & ->)]; [done|].
  destruct Hok2 as (Hqueue2 & Hpages2 & Himages2).
  split_and!; [|done|done]. simpl.
  generalize (visited_pages st2). intros visited.
  assert (Forall normalized
            (sorted ((discover_links soup page follow).1
                     ∪ (discover_links soup page follow).2))) as Hlinks.
  { apply Forall_forall. intros u Hu. apply (discover_links_normalized soup page follow).
    unfold sorted in Hu. by rewrite merge_sort_Permutation, elem_of_elements in Hu. }
  revert Hqueue2 Hlinks. generalize (queue st2).
  generalize (sorted ((discover_links soup page follow).1
                      ∪ (discover_links soup page follow).2)).
  induction l as [|link l IH]; intros queue Hqueue2 Hlinks; simpl; [done|].
  apply Forall_cons in Hlinks as [Hlink Hlinks]. apply IH; [|done].
  unfold enqueue. repeat case_match; try done.
  apply Forall_app. split; [done|]. by constructor.
Qed.

Lemma requests_ok_loop fuel :
  ∀ st, requests_ok st →
        requests_ok (state_of (crawl_loop web args allowed_hosts skip_keywords fuel st)).
Proof.
  induction fuel as [|fuel IH]; intros st Hok; simpl; [done|].
  pose proof (requests_ok_step st Hok) as Hstep.
  destruct (crawl_step _ _ _ _ st); simpl in *; [by apply IH|done|done].
Qed.

End Requests.

(** Every URL the crawl requests or queues comes out of [normalize_url],
    or is a variant of one that does. At any point of the crawl, each page
    requested and each URL in the queue is a reference resolved and normalized
    by [normalize_url] (so its parsed form had scheme [http] or [https], and its
    fragment was removed), and each image requested is one of the variants
    [guess_fullsize_variants] gives for such a URL. *)
Theorem crawl_requests_normalized `{PyLib} (web : string → option Response)
    (args : Args) (fuel : nat) :
  let st := state_of (crawl_and_download web args fuel) in
  Forall (λ url, ∃ raw base, normalize_url raw base = Some url)
         (gets PageGet (requests (env st)))
  ∧ Forall (λ url, ∃ raw base source,
                     normalize_url raw base = Some source
                     ∧ url ∈ guess_fullsize_variants source)
           (gets ImageGet (requests (env st)))
  ∧ Forall (λ url, ∃ raw base, normalize_url raw base = Some url) (queue st).
Proof.
  cbv zeta.
  assert (requests_ok (state_of (crawl_and_download web args fuel)))
    as (Hqueue & Hpages & Himages).
  { unfold crawl_and_download.
    destruct (valid_start_urls args) as [|u q] eqn:Hv.
    - by repeat split.
    - apply requests_ok_loop. split_and!; [|done|done]. simpl.
      rewrite <- Hv. apply Forall_forall. intros url Hurl.
      unfold valid_start_urls in Hurl.
      apply list_elem_of_omap in Hurl as (x & _ & Hx).
      destruct (normalize_url x x) as [v|] eqn:Hn; [|done].
      destruct (truthy v); [|done]. injection Hx as <-. by eexists _, _. }
  split_and!; [done| |done].
  eapply Forall_impl; [exact Himages|].
  intros url (source & (raw & base & Hs) & Hin). by exists raw, base, source.
Qed.

(** ** The conditional properties at concrete inputs *)


(** The two iteration orders of the reference library on the URL whose
    variants they order differently. *)
Lemma guess_fullsize_variants_order_only_witness :
  guess_fullsize_variants (H:=Reference.lib []) "http://h.com/thumb/a-small.jpg"
  ≡ₚ guess_fullsize_variants (H:=Reference.lib' []) "http://h.com/thumb/a-small.jpg".
Proof.
  apply (guess_fullsize_variants_order_only (Reference.lib []) (Reference.lib' []));
    reflexivity.
Defined.


